(** * FunctionalPlus: the search functions of [include/fplus/search.h]

    A shallow embedding of the header and the properties of its functions.
    Containers are lists, iterators are positions in a container,
    [std::size_t] values are integers reduced modulo [2^64], and the
    predicates handed to the functions are boolean functions. *)

From stdpp Require Import base numbers list sorting strings.
From Stdlib Require Import ZArith Lia.

(** ** [std::size_t] *)

Definition size_t_bits : Z := 64.
Definition size_t_modulus : Z := 2 ^ size_t_bits.
Definition SIZE_MAX : Z := size_t_modulus - 1.

(** Unsigned arithmetic wraps around. *)
Definition wrap (z : Z) : Z := z `mod` size_t_modulus.

Definition size_add (a b : Z) : Z := wrap (a + b).
Definition size_sub (a b : Z) : Z := wrap (a - b).
(** [++idx] *)
Definition size_incr (a : Z) : Z := size_add a 1.

(** A container whose number of elements is a [std::size_t] value. *)
Definition fits_size_t {T} (xs : list T) : Prop :=
  (Z.of_nat (length xs) ≤ SIZE_MAX)%Z.

(** ** The standard algorithms the header calls

    An iterator of a container is a position in it: [std_begin] is position
    [0] and [std_end] the number of elements. *)

Abbreviation iterator := nat (only parsing).

Section std_algorithms.
Context {T : Type} `{EqDecision T}.

Definition std_begin (xs : list T) : iterator := 0.
Definition std_end (xs : list T) : iterator := length xs.

(** The elements of [xs] between two iterators. *)
Definition range (xs : list T) (first last : iterator) : list T :=
  take (last - first) (drop first xs).

Fixpoint find_if_loop (pred : T → bool) (rest : list T) (it : iterator)
  : iterator :=
  match rest with
  | [] => it
  | x :: rest' => if pred x then it else find_if_loop pred rest' (S it)
  end.

(** [std::find_if(first, last, pred)]: the first iterator in the range
    whose element satisfies [pred], or [last]. *)
Definition std_find_if (xs : list T) (first last : iterator)
    (pred : T → bool) : iterator :=
  find_if_loop pred (range xs first last) first.

(** [std::distance(first, last)], converted to [std::size_t]. *)
Definition std_distance (first last : iterator) : Z :=
  wrap (Z.of_nat last - Z.of_nat first).

(** [std::advance(it, n)] *)
Definition std_advance (it : iterator) (n : Z) : iterator :=
  it + Z.to_nat n.

(** The comparison loop of [std::equal]: the elements of the first range
    against as many elements read from the second iterator on, with
    [operator==].  Reading past the end of the second container is
    undefined in C++; the loop answers [false] there. *)
Fixpoint equal_loop (r1 r2 : list T) : bool :=
  match r1, r2 with
  | [], _ => true
  | x :: r1', y :: r2' => bool_decide (x = y) && equal_loop r1' r2'
  | _ :: _, [] => false
  end.

(** [std::equal(first1, last1, first2)] *)
Definition std_equal (xs : list T) (first1 last1 : iterator)
    (ys : list T) (first2 : iterator) : bool :=
  equal_loop (range xs first1 last1) (drop first2 ys).
End std_algorithms.

(** ** The collaborators of [search.h] *)

(** Modelled from the spec: [maybe.h] is not among the sources.  An optional
    value is either empty or holds exactly one value. *)
Inductive maybe (T : Type) : Type :=
  | nothing : maybe T
  | just : T → maybe T.
Arguments nothing {T}.
Arguments just {T} _.

(** Modelled from the spec: [lift] of [maybe.h].  The lifted function gives
    an empty result on an empty argument, without calling [f], and else
    holds [f] of the value. *)
Definition lift {A B : Type} (f : A → B) (m : maybe A) : maybe B :=
  match m with
  | nothing => nothing
  | just x => just (f x)
  end.

(** Modelled from the spec: [reverse], [size_of_cont] and
    [get_back_inserter] of [container_common.h], which is not among the
    sources: a reversed copy, the number of elements as a [std::size_t],
    and appending at the end of the result container. *)
Definition reverse {T} (xs : list T) : list T := rev xs.

Definition size_of_cont {T} (xs : list T) : Z := wrap (Z.of_nat (length xs)).

Definition push_back {T} (result : list T) (x : T) : list T := result ++ [x].

(** Modelled from the spec: [bind_1st_of_2] and [is_equal] of
    [composition.h], which is not among the sources: partial application of
    a binary function to its first argument, and the equality test of the
    element type. *)
Definition bind_1st_of_2 {A B C : Type} (f : A → B → C) (x : A) : B → C :=
  fun y => f x y.

Definition is_equal {T} `{EqDecision T} (a b : T) : bool := bool_decide (a = b).

(** ** [search.h]

    [check_unary_predicate_for_container] is a compile-time check of the
    predicate's type and has no run-time part. *)

Section search.
Context {T : Type} `{EqDecision T}.

Definition find_first_by (pred : T → bool) (xs : list T) : maybe T :=
  let it := std_find_if xs (std_begin xs) (std_end xs) pred in
  if decide (it = std_end xs) then nothing
  else match xs !! it with
       | Some x => just x
       | None => nothing
       end.

Definition find_last_by (pred : T → bool) (xs : list T) : maybe T :=
  find_first_by pred (reverse xs).

Definition find_first_idx_by (pred : T → bool) (xs : list T) : maybe Z :=
  let it := std_find_if xs (std_begin xs) (std_end xs) pred in
  if decide (it = std_end xs) then nothing
  else just (std_distance (std_begin xs) it).

Definition calcRevIdx (xs : list T) (idx : Z) : Z :=
  size_sub (size_of_cont xs) (size_add idx 1).

Definition find_last_idx_by (pred : T → bool) (xs : list T) : maybe Z :=
  lift (calcRevIdx xs) (find_first_idx_by pred (reverse xs)).

Definition find_first_idx (x : T) (xs : list T) : maybe Z :=
  let pred := bind_1st_of_2 is_equal x in
  find_first_idx_by pred xs.

Definition find_last_idx (x : T) (xs : list T) : maybe Z :=
  let pred := bind_1st_of_2 is_equal x in
  find_last_idx_by pred xs.

(** The state of the [for] loop: the running index and the result. *)
Definition idxs_step (p : T → bool) (st : Z * list Z) (x : T)
  : Z * list Z :=
  let '(idx, result) := st in
  let result := if p x then push_back result idx else result in
  (size_incr idx, result).

Definition find_all_idxs_by (p : T → bool) (xs : list T) : list Z :=
  snd (foldl (idxs_step p) (0%Z, []) xs).

Definition find_all_idxs_of (x : T) (xs : list T) : list Z :=
  let pred := bind_1st_of_2 is_equal x in
  find_all_idxs_by pred xs.
End search.

(** *** Subsequence search *)

(** The variables of the scan of [find_all_instances_of].  [checked] is not
    a variable of the source: it records, in order, the candidate indices
    [check_and_push] has compared with the token. *)
Record scan_state : Type := ScanState {
  itInBegin : iterator;
  itInEnd : iterator;
  idx : Z;
  result : list Z;
  checked : list Z
}.

Section instances.
Context {T : Type} `{EqDecision T}.

Definition check_and_push (token xs : list T) (st : scan_state)
  : scan_state :=
  {| itInBegin := itInBegin st;
     itInEnd := itInEnd st;
     idx := idx st;
     result :=
       if std_equal xs (itInBegin st) (itInEnd st) token (std_begin token)
       then push_back (result st) (idx st)
       else result st;
     checked := push_back (checked st) (idx st) |}.

(** The body of the [while] loop. *)
Definition scan_body (token xs : list T) (st : scan_state) : scan_state :=
  let st := check_and_push token xs st in
  {| itInBegin := S (itInBegin st);
     itInEnd := S (itInEnd st);
     idx := size_incr (idx st);
     result := result st;
     checked := checked st |}.

(** [while (idx != last_possible_idx)], unrolled at most [fuel] times. *)
Fixpoint scan_loop (token xs : list T) (last_possible_idx : Z)
    (fuel : nat) (st : scan_state) : scan_state :=
  match fuel with
  | O => st
  | S fuel' =>
      if decide (idx st = last_possible_idx) then st
      else scan_loop token xs last_possible_idx fuel' (scan_body token xs st)
  end.

(** The state in which the [while] loop is left.  The loop counts [idx]
    up from [0], so [last_possible_idx] rounds are enough:
    [scan_exit_guard] shows that the guard is false in this state, and
    [scan_loop_more_fuel] that more rounds change nothing. *)
Definition scan (token xs : list T) : scan_state :=
  let itInBegin := std_begin xs in
  let itInEnd := std_advance itInBegin (size_of_cont token) in
  let last_possible_idx := size_sub (size_of_cont xs) (size_of_cont token) in
  scan_loop token xs last_possible_idx (Z.to_nat last_possible_idx)
    {| itInBegin := itInBegin; itInEnd := itInEnd; idx := 0;
       result := []; checked := [] |}.

(** The candidates compared with the token, and the result. *)
Definition find_all_instances_of_trace (token xs : list T)
  : list Z * list Z :=
  if decide (size_of_cont token > size_of_cont xs)%Z then ([], [])
  else
    let st := check_and_push token xs (scan token xs) in
    (checked st, result st).

Definition find_all_instances_of (token xs : list T) : list Z :=
  snd (find_all_instances_of_trace token xs).

(** One round of the [for] loop of the non-overlapping variant;
    [result.back()] is read only when [result] is not empty. *)
Definition non_overlapping_step (token_size : Z) (result : list Z)
    (idx : Z) : list Z :=
  match last result with
  | None => push_back result idx
  | Some back =>
      if decide (size_add back token_size ≤ idx)%Z
      then push_back result idx
      else result
  end.

Definition find_all_instances_of_non_overlapping (token xs : list T)
  : list Z :=
  let overlapping_instances := find_all_instances_of token xs in
  let token_size := size_of_cont token in
  foldl (non_overlapping_step token_size) [] overlapping_instances.
End instances.

(** ** What the specification says, in its own words *)

(** The leftmost-greedy selection over an ascending list of match
    positions: the first match is kept, and a later match is kept when it
    starts at or after the end of the last kept match. *)
Fixpoint greedy_from (token_size prev : Z) (matches : list Z) : list Z :=
  match matches with
  | [] => []
  | b :: matches' =>
      if decide (prev + token_size ≤ b)%Z
      then b :: greedy_from token_size b matches'
      else greedy_from token_size prev matches'
  end.

Definition leftmost_greedy (token_size : Z) (matches : list Z) : list Z :=
  match matches with
  | [] => []
  | a :: matches' => a :: greedy_from token_size a matches'
  end.

(** The sub-range [xs[i .. i+n)]. *)
Definition sub_range {T} (xs : list T) (i n : nat) : list T :=
  take n (drop i xs).

(** The number of elements satisfying [p]. *)
Fixpoint count_if {T} (p : T → bool) (xs : list T) : nat :=
  match xs with
  | [] => 0
  | x :: xs' => (if p x then 1 else 0) + count_if p xs'
  end.

Definition chars (s : string) : list Ascii.ascii :=
  String.list_ascii_of_string s.

(** A position of [xs] holding an element that satisfies [p]. *)
Definition match_at {T} (p : T → bool) (xs : list T) (n : nat) : Prop :=
  ∃ x, xs !! n = Some x ∧ p x = true.

Definition no_match {T} (p : T → bool) (xs : list T) : Prop :=
  ∀ x, x ∈ xs → p x = false.

(** The smallest, and the largest, position whose element satisfies [p]. *)
Definition first_match {T} (p : T → bool) (xs : list T) (n : nat) : Prop :=
  match_at p xs n ∧ ∀ m, m < n → ¬ match_at p xs m.

Definition last_match {T} (p : T → bool) (xs : list T) (n : nat) : Prop :=
  match_at p xs n ∧ ∀ m, n < m → ¬ match_at p xs m.

(** The indices, counted from [k], of the elements satisfying [p]. *)
Fixpoint idxs_from {T} (p : T → bool) (k : Z) (xs : list T) : list Z :=
  match xs with
  | [] => []
  | x :: xs' => (if p x then [k] else []) ++ idxs_from p (k + 1) xs'
  end.

(** The start positions below [k] at which the token occurs in [xs], in
    ascending order. *)
Fixpoint occurrences {T} `{EqDecision T} (token xs : list T) (k : nat)
  : list Z :=
  match k with
  | O => []
  | S k' =>
      occurrences token xs k'
        ++ (if decide (sub_range xs k' (length token) = token)
            then [Z.of_nat k'] else [])
  end.

(** The variables of the scan when the [while] loop has run [k] times. *)
Definition scan_state_at {T} `{EqDecision T} (token xs : list T) (k : nat)
  : scan_state :=
  {| itInBegin := k;
     itInEnd := k + length token;
     idx := Z.of_nat k;
     result := occurrences token xs k;
     checked := Z.of_nat <$> seq 0 k |}.

(** An optional value of the library as a [maybe]. *)
Definition to_maybe {T} (o : option T) : maybe T :=
  match o with
  | Some x => just x
  | None => nothing
  end.

(** The variables of the scan before the first round of the [while] loop,
    and the index at which the loop stops. *)
Definition scan_init {T} (token xs : list T) : scan_state :=
  {| itInBegin := std_begin xs;
     itInEnd := std_advance (std_begin xs) (size_of_cont token);
     idx := 0;
     result := [];
     checked := [] |}.

Definition last_possible_idx {T} (token xs : list T) : Z :=
  size_sub (size_of_cont xs) (size_of_cont token).

(** ** Tactics *)

Ltac size_t_fits :=
  unfold fits_size_t, SIZE_MAX, size_t_modulus, size_t_bits; simpl; lia.

(** ** Arithmetic on [std::size_t] *)

Lemma wrap_small z : (0 ≤ z ≤ SIZE_MAX)%Z → wrap z = z.
Proof. unfold wrap, SIZE_MAX. intros Hz. apply Z.mod_small. lia. Qed.

Lemma wrap_range z : (0 ≤ wrap z ≤ SIZE_MAX)%Z.
Proof.
  unfold wrap, SIZE_MAX.
  assert (0 < size_t_modulus)%Z by reflexivity.
  pose proof (Z.mod_pos_bound z size_t_modulus). lia.
Qed.

Lemma size_of_cont_fits {T} (xs : list T) :
  fits_size_t xs → size_of_cont xs = Z.of_nat (length xs).
Proof. intros Hfit. apply wrap_small. unfold fits_size_t in Hfit. lia. Qed.

Lemma reverse_alt {T} (xs : list T) : reverse xs = list.reverse xs.
Proof. unfold reverse, list.reverse. apply rev_alt. Qed.

Lemma fits_size_t_reverse {T} (xs : list T) :
  fits_size_t xs → fits_size_t (reverse xs).
Proof. unfold fits_size_t, reverse. by rewrite length_rev. Qed.

(** ** The forward scan of [std::find_if] *)

Section find_if.
Context {T : Type}.
Implicit Types (pred : T → bool) (xs rest : list T) (it : iterator).

Lemma find_if_loop_bounds pred rest it :
  it ≤ find_if_loop pred rest it ≤ it + length rest.
Proof.
  revert it. induction rest as [|x rest IH]; intros it; simpl; [lia|].
  destruct (pred x); [lia|]. specialize (IH (S it)). lia.
Qed.

Lemma find_if_loop_before pred rest it j y :
  rest !! j = Some y → it + j < find_if_loop pred rest it → pred y = false.
Proof.
  revert it j. induction rest as [|x rest IH]; intros it j; [done|].
  simpl. destruct (pred x) eqn:Hx; [lia|].
  destruct j as [|j]; simpl.
  - intros [= <-] _. exact Hx.
  - intros Hj Hlt. apply (IH (S it) j Hj). lia.
Qed.

Lemma find_if_loop_found pred rest it :
  find_if_loop pred rest it < it + length rest →
  ∃ y, rest !! (find_if_loop pred rest it - it) = Some y ∧ pred y = true.
Proof.
  revert it. induction rest as [|x rest IH]; intros it; simpl; [lia|].
  destruct (pred x) eqn:Hx.
  - intros _. exists x. by rewrite Nat.sub_diag.
  - intros Hlt. destruct (IH (S it)) as (y & Hy & Hp); [lia|].
    exists y. split; [|done].
    pose proof (find_if_loop_bounds pred rest (S it)).
    replace (find_if_loop pred rest (S it) - it)
      with (S (find_if_loop pred rest (S it) - S it)) by lia.
    exact Hy.
Qed.

Lemma range_all xs : range xs (std_begin xs) (std_end xs) = xs.
Proof.
  unfold range, std_begin, std_end. rewrite drop_0, Nat.sub_0_r.
  by apply take_ge.
Qed.

(** What [std::find_if] over the whole container returns. *)
Lemma find_if_cases pred xs :
  let it := std_find_if xs (std_begin xs) (std_end xs) pred in
  (it = std_end xs ∧ no_match pred xs) ∨
  (it < std_end xs ∧ first_match pred xs it).
Proof.
  unfold std_find_if. rewrite range_all. unfold std_begin, std_end. simpl.
  pose proof (find_if_loop_bounds pred xs 0) as Hb.
  destruct (decide (find_if_loop pred xs 0 = length xs)) as [Heq|Hne].
  - left. split; [done|]. intros x [j Hj]%list_elem_of_lookup.
    apply (find_if_loop_before pred xs 0 j x Hj).
    apply lookup_lt_Some in Hj. lia.
  - right. split; [lia|]. split.
    + destruct (find_if_loop_found pred xs 0) as (y & Hy & Hp); [lia|].
      exists y. by rewrite Nat.sub_0_r in Hy.
    + intros m Hm (y & Hy & Hp).
      rewrite (find_if_loop_before pred xs 0 m y Hy) in Hp; [done|lia].
Qed.

Lemma no_match_not_match_at pred xs n : no_match pred xs → ¬ match_at pred xs n.
Proof.
  intros Hno (x & Hx & Hp). rewrite (Hno x) in Hp; [done|].
  apply list_elem_of_lookup. eauto.
Qed.

Lemma match_at_lt pred xs n : match_at pred xs n → n < length xs.
Proof. intros (x & Hx & _). by apply lookup_lt_Some in Hx. Qed.

Lemma no_match_reverse pred xs : no_match pred (reverse xs) ↔ no_match pred xs.
Proof.
  unfold no_match. rewrite reverse_alt.
  split; intros Hno x Hx; apply Hno; by apply elem_of_reverse.
Qed.

Lemma match_at_reverse pred xs n :
  n < length xs →
  match_at pred (reverse xs) n ↔ match_at pred xs (length xs - S n).
Proof.
  intros Hn. unfold match_at. rewrite reverse_alt.
  by rewrite reverse_lookup.
Qed.

(** The first match of the reversed container is the last match of the
    container, at the mirrored position. *)
Lemma first_match_reverse pred xs n :
  first_match pred (reverse xs) n → last_match pred xs (length xs - S n).
Proof.
  intros [Hat Hbefore].
  assert (n < length xs) as Hn.
  { apply match_at_lt in Hat. unfold reverse in Hat.
    by rewrite length_rev in Hat. }
  split; [by apply match_at_reverse|].
  intros m Hm Hatm. pose proof (match_at_lt _ _ _ Hatm) as Hlt.
  apply (Hbefore (length xs - S m)); [lia|].
  apply match_at_reverse; [lia|].
  by replace (length xs - S (length xs - S m)) with m by lia.
Qed.
End find_if.

(** ** First and last match *)

Section first_last.
Context {T : Type}.
Implicit Types (pred : T → bool) (xs : list T).

Lemma no_match_dec pred xs : no_match pred xs ∨ ¬ no_match pred xs.
Proof.
  destruct (find_if_cases pred xs) as [[_ Hno]|[_ [Hat _]]]; [by left|].
  right. intros Hno. by eapply no_match_not_match_at.
Qed.

Lemma find_first_by_cases pred xs :
  (find_first_by pred xs = nothing ∧ no_match pred xs) ∨
  (∃ n x, find_first_by pred xs = just x ∧ xs !! n = Some x ∧
          first_match pred xs n).
Proof.
  unfold find_first_by.
  destruct (find_if_cases pred xs) as [[Heq Hno]|[Hlt Hfm]]; simpl in *.
  - left. by rewrite decide_True.
  - right. rewrite decide_False by lia.
    destruct Hfm as [(x & Hx & Hp) Hbefore].
    exists (std_find_if xs (std_begin xs) (std_end xs) pred), x.
    rewrite Hx. split; [done|]. split; [done|].
    split; [by exists x|done].
Qed.

Lemma find_first_idx_by_cases pred xs :
  fits_size_t xs →
  (find_first_idx_by pred xs = nothing ∧ no_match pred xs) ∨
  (∃ n, find_first_idx_by pred xs = just (Z.of_nat n) ∧
        first_match pred xs n).
Proof.
  intros Hfit. unfold find_first_idx_by.
  destruct (find_if_cases pred xs) as [[Heq Hno]|[Hlt Hfm]]; simpl in *.
  - left. by rewrite decide_True.
  - right. rewrite decide_False by lia.
    exists (std_find_if xs (std_begin xs) (std_end xs) pred).
    split; [|exact Hfm].
    unfold std_distance, fits_size_t, std_begin, std_end in *.
    rewrite wrap_small; [f_equal; lia|lia].
Qed.

Lemma calcRevIdx_mirror xs m :
  fits_size_t xs → m < length xs →
  calcRevIdx xs (Z.of_nat m) = Z.of_nat (length xs - S m).
Proof.
  intros Hfit Hm. unfold calcRevIdx, size_sub, size_add.
  rewrite size_of_cont_fits by done. unfold fits_size_t in Hfit.
  rewrite (wrap_small (Z.of_nat m + 1)) by lia.
  rewrite wrap_small by lia. lia.
Qed.

Lemma find_last_idx_by_cases pred xs :
  fits_size_t xs →
  (find_last_idx_by pred xs = nothing ∧
   find_first_idx_by pred (reverse xs) = nothing ∧ no_match pred xs) ∨
  (∃ n, find_last_idx_by pred xs = just (Z.of_nat n) ∧
        last_match pred xs n ∧
        find_first_idx_by pred (reverse xs)
          = just (Z.of_nat (length xs - S n))).
Proof.
  intros Hfit. unfold find_last_idx_by.
  destruct (find_first_idx_by_cases pred (reverse xs))
    as [[Heq Hno]|(m & Heq & Hfm)]; [by apply fits_size_t_reverse| |].
  - left. rewrite Heq. by rewrite <-no_match_reverse.
  - right. rewrite Heq. simpl.
    assert (m < length xs) as Hm.
    { destruct Hfm as [Hat _]. apply match_at_lt in Hat.
      unfold reverse in Hat. by rewrite length_rev in Hat. }
    exists (length xs - S m). rewrite calcRevIdx_mirror by done.
    split; [done|]. split; [by apply first_match_reverse|].
    do 2 f_equal. lia.
Qed.

Lemma find_last_by_cases pred xs :
  (find_last_by pred xs = nothing ∧ no_match pred xs) ∨
  (∃ n x, find_last_by pred xs = just x ∧ xs !! n = Some x ∧
          last_match pred xs n).
Proof.
  unfold find_last_by.
  destruct (find_first_by_cases pred (reverse xs))
    as [[Heq Hno]|(m & x & Heq & Hx & Hfm)].
  - left. by rewrite <-no_match_reverse.
  - right. exists (length xs - S m), x. split; [done|].
    assert (m < length xs) as Hm.
    { apply lookup_lt_Some in Hx. unfold reverse in Hx.
      by rewrite length_rev in Hx. }
    split; [|by apply first_match_reverse].
    rewrite reverse_alt in Hx. by rewrite reverse_lookup in Hx.
Qed.

(** C1. [find_first_idx_by pred xs] is empty exactly when no element of
    [xs] satisfies [pred]; otherwise it holds the smallest index whose
    element satisfies [pred]. *)
Theorem find_first_idx_by_correct pred xs :
  fits_size_t xs →
  (find_first_idx_by pred xs = nothing ↔ no_match pred xs) ∧
  (¬ no_match pred xs →
   ∃ n, find_first_idx_by pred xs = just (Z.of_nat n) ∧
        first_match pred xs n).
Proof.
  intros Hfit.
  destruct (find_first_idx_by_cases pred xs Hfit)
    as [[Heq Hno]|(n & Heq & Hfm)].
  - split; [done|]. intros Hsome. by destruct Hsome.
  - split; [|by eauto]. rewrite Heq. split; [done|].
    intros Hno. destruct Hfm as [Hat _].
    by apply no_match_not_match_at with (n := n) in Hno.
Qed.

(** C2. [find_last_idx_by pred xs] is empty when no element satisfies
    [pred] and otherwise holds the largest index whose element satisfies
    [pred].  It is [find_first_idx_by] on the reversed container with the
    index [i] remapped to [size(xs) - (i + 1)] through [lift]: a found
    index is remapped, without wrap-around, and an empty result stays
    empty. *)
Theorem find_last_idx_by_correct pred xs :
  fits_size_t xs →
  (find_last_idx_by pred xs = nothing ↔ no_match pred xs) ∧
  (¬ no_match pred xs →
   ∃ n, find_last_idx_by pred xs = just (Z.of_nat n) ∧
        last_match pred xs n) ∧
  find_last_idx_by pred xs
    = lift (λ i, size_sub (size_of_cont xs) (size_add i 1))
        (find_first_idx_by pred (reverse xs)) ∧
  (∀ i, find_first_idx_by pred (reverse xs) = just i →
        find_last_idx_by pred xs
          = just (Z.of_nat (length xs) - (i + 1))%Z) ∧
  (find_first_idx_by pred (reverse xs) = nothing →
   find_last_idx_by pred xs = nothing).
Proof.
  intros Hfit.
  destruct (find_last_idx_by_cases pred xs Hfit)
    as [(Heq & Hrev & Hno)|(n & Heq & Hlm & Hrev)].
  - split_and!.
    + done.
    + intros Hsome. by destruct Hsome.
    + done.
    + intros i Hi. by rewrite Hrev in Hi.
    + done.
  - split_and!.
    + rewrite Heq. split; [done|]. intros Hno. destruct Hlm as [Hat _].
      by apply no_match_not_match_at with (n := n) in Hno.
    + eauto.
    + done.
    + intros i Hi. rewrite Hrev in Hi. injection Hi as <-.
      rewrite Heq. f_equal. destruct Hlm as [Hat _].
      apply match_at_lt in Hat. lia.
    + intros Hnone. by rewrite Hrev in Hnone.
Qed.

(** C7. [find_last_by pred xs] is [find_first_by pred (reverse xs)]; it
    holds the last element of [xs] that satisfies [pred], and is empty
    when no element does. *)
Theorem find_last_by_correct pred xs :
  find_last_by pred xs = find_first_by pred (reverse xs) ∧
  (find_last_by pred xs = nothing ↔ no_match pred xs) ∧
  (¬ no_match pred xs →
   ∃ n x, find_last_by pred xs = just x ∧ xs !! n = Some x ∧
          last_match pred xs n).
Proof.
  split; [done|].
  destruct (find_last_by_cases pred xs)
    as [[Heq Hno]|(n & x & Heq & Hx & Hlm)].
  - split; [done|]. intros Hsome. by destruct Hsome.
  - split; [|by eauto]. rewrite Heq. split; [done|].
    intros Hno. destruct Hlm as [Hat _].
    by apply no_match_not_match_at with (n := n) in Hno.
Qed.
End first_last.

Lemma find_first_idx_by_correct_witness :
  fits_size_t [1; 3; 4; 6; 9]%Z ∧
  ((find_first_idx_by Z.even [1; 3; 4; 6; 9]%Z = nothing
    ↔ no_match Z.even [1; 3; 4; 6; 9]%Z) ∧
   (¬ no_match Z.even [1; 3; 4; 6; 9]%Z →
    ∃ n, find_first_idx_by Z.even [1; 3; 4; 6; 9]%Z = just (Z.of_nat n) ∧
         first_match Z.even [1; 3; 4; 6; 9]%Z n)).
Proof.
  split; [size_t_fits|].
  apply (find_first_idx_by_correct Z.even [1; 3; 4; 6; 9]%Z). size_t_fits.
Defined.

Lemma find_last_idx_by_correct_witness :
  fits_size_t [1; 3; 4; 6; 9]%Z ∧
  (∀ i, find_first_idx_by Z.even (reverse [1; 3; 4; 6; 9]%Z) = just i →
        find_last_idx_by Z.even [1; 3; 4; 6; 9]%Z = just (5 - (i + 1))%Z).
Proof.
  split; [size_t_fits|].
  apply (find_last_idx_by_correct Z.even [1; 3; 4; 6; 9]%Z). size_t_fits.
Defined.

(** ** Searching for a value *)

(** C8. [find_first_idx x xs] and [find_last_idx x xs] are
    [find_first_idx_by] and [find_last_idx_by] with the predicate obtained
    by applying the equality test to [x], which holds of the elements equal
    to [x]; [find_first_idx 4 [1,3,4,4,9]] is [Just 2] and
    [find_last_idx 4 [1,3,4,4,9]] is [Just 3]. *)
Theorem find_idx_of_value :
  (∀ (T : Type) `(EqDecision T) (x : T) (xs : list T),
     find_first_idx x xs = find_first_idx_by (bind_1st_of_2 is_equal x) xs ∧
     find_last_idx x xs = find_last_idx_by (bind_1st_of_2 is_equal x) xs ∧
     ∀ y, bind_1st_of_2 is_equal x y = true ↔ y = x) ∧
  find_first_idx 4%Z [1; 3; 4; 4; 9]%Z = just 2%Z ∧
  find_last_idx 4%Z [1; 3; 4; 4; 9]%Z = just 3%Z.
Proof.
  split; [|by vm_compute].
  intros T HT x xs. split; [done|]. split; [done|].
  intros y. unfold bind_1st_of_2, is_equal.
  rewrite bool_decide_eq_true. naive_solver.
Qed.

(** ** A predicate that matches every element *)

Section match_all.
Context {T : Type}.
Implicit Types (pred : T → bool) (xs : list T).

Lemma all_match_first pred x xs n :
  pred x = true → first_match pred (x :: xs) n → n = 0.
Proof.
  intros Hx [_ Hbefore]. destruct n as [|n]; [done|].
  destruct (Hbefore 0); [lia|]. by exists x.
Qed.

Lemma all_match_last pred xs n :
  (∀ x, x ∈ xs → pred x = true) → last_match pred xs n →
  n = Nat.pred (length xs).
Proof.
  intros Hall [Hat Hafter]. pose proof (match_at_lt _ _ _ Hat) as Hn.
  destruct (decide (n = Nat.pred (length xs))) as [|Hne]; [done|].
  destruct (Hafter (Nat.pred (length xs))); [lia|].
  destruct (lookup_lt_is_Some_2 xs (Nat.pred (length xs))) as [y Hy]; [lia|].
  exists y. split; [done|]. apply Hall, list_elem_of_lookup. eauto.
Qed.

(** C9, as the code has it.  Under a predicate that matches every
    element, the first and last index coincide exactly when the container
    has at most one element, and the first and last matching element
    coincide exactly when the container is empty or begins and ends with
    equal elements; both pairs coincide on a one-element container. *)
Theorem first_last_coincide pred xs :
  fits_size_t xs →
  (∀ x, x ∈ xs → pred x = true) →
  (find_first_idx_by pred xs = find_last_idx_by pred xs ↔ length xs ≤ 1) ∧
  (find_first_by pred xs = find_last_by pred xs ↔ head xs = last xs) ∧
  (length xs = 1 →
   find_first_idx_by pred xs = find_last_idx_by pred xs ∧
   find_first_by pred xs = find_last_by pred xs).
Proof.
  intros Hfit Hall.
  assert ((find_first_idx_by pred xs = find_last_idx_by pred xs
           ↔ length xs ≤ 1) ∧
          (find_first_by pred xs = find_last_by pred xs
           ↔ head xs = last xs)) as [Hidx Helem].
  { destruct xs as [|x0 xs']; [split; split; first [done|simpl; lia]|].
    assert (pred x0 = true) as Hx0 by (apply Hall; left).
    assert (¬ no_match pred (x0 :: xs')) as Hsome.
    { intros Hno. rewrite (Hno x0) in Hx0; [done|left]. }
    split.
    - destruct (find_first_idx_by_cases pred (x0 :: xs') Hfit)
        as [[_ Hno]|(n & -> & Hn)]; [done|].
      destruct (find_last_idx_by_cases pred (x0 :: xs') Hfit)
        as [(_ & _ & Hno)|(m & -> & Hm & _)]; [done|].
      apply all_match_first in Hn as ->; [|done].
      apply all_match_last in Hm as ->; [|done]. simpl.
      split; [intros [= Heq]|intros Hle; f_equal]; lia.
    - destruct (find_first_by_cases pred (x0 :: xs'))
        as [[_ Hno]|(n & x & -> & Hx & Hn)]; [done|].
      destruct (find_last_by_cases pred (x0 :: xs'))
        as [[_ Hno]|(m & y & -> & Hy & Hm)]; [done|].
      apply all_match_first in Hn as ->; [|done].
      apply all_match_last in Hm as ->; [|done].
      rewrite last_lookup, Hy. simpl in Hx. injection Hx as ->.
      simpl. split; congruence. }
  split; [done|]. split; [done|]. intros Hone.
  split; [apply Hidx; lia|]. apply Helem.
  destruct xs as [|x0 [|x1 xs']]; simpl in Hone; [lia|done|lia].
Qed.
End match_all.

Lemma first_last_coincide_witness :
  fits_size_t [7]%Z ∧ (∀ x, x ∈ [7]%Z → (λ _ : Z, true) x = true) ∧
  (find_first_idx_by (λ _ : Z, true) [7]%Z
     = find_last_idx_by (λ _ : Z, true) [7]%Z ↔ length [7]%Z ≤ 1).
Proof.
  split; [size_t_fits|]. split; [done|].
  apply (first_last_coincide (λ _ : Z, true) [7]%Z); [size_t_fits|done].
Defined.

(** C9, as the specification states it, fails: on [[7, 7]] the first and
    the last matching element coincide, and on the empty container both
    index results and both element results are empty, although neither
    container has exactly one element. *)
Lemma first_last_coincide_counterexample :
  (* the predicate matches every element of both containers *)
  (∀ x, x ∈ [7; 7]%Z → (λ _ : Z, true) x = true) ∧
  (∀ x, x ∈ @nil Z → (λ _ : Z, true) x = true) ∧
  (* the results coincide *)
  find_first_by (λ _ : Z, true) [7; 7]%Z
    = find_last_by (λ _ : Z, true) [7; 7]%Z ∧
  find_first_idx_by (λ _ : Z, true) []
    = find_last_idx_by (λ _ : Z, true) [] ∧
  find_first_by (λ _ : Z, true) [] = find_last_by (λ _ : Z, true) [] ∧
  (* neither container has exactly one element *)
  length [7; 7]%Z ≠ 1 ∧ length (@nil Z) ≠ 1.
Proof. split_and!; done. Qed.

(** ** All indices satisfying a predicate *)

Section all_idxs.
Context {T : Type}.
Implicit Types (p : T → bool) (xs : list T).

Lemma idxs_loop_length p xs k acc :
  length (foldl (idxs_step p) (k, acc) xs).2 = length acc + count_if p xs.
Proof.
  revert k acc. induction xs as [|x xs IH]; intros k acc; simpl; [lia|].
  rewrite IH. unfold push_back. destruct (p x); [|lia].
  rewrite length_app. simpl. lia.
Qed.

(** The [for] loop, as long as the running index does not wrap around. *)
Lemma idxs_loop_run p xs k acc :
  (0 ≤ k)%Z → (k + Z.of_nat (length xs) ≤ SIZE_MAX)%Z →
  (foldl (idxs_step p) (k, acc) xs).2 = acc ++ idxs_from p k xs.
Proof.
  revert k acc. induction xs as [|x xs IH]; intros k acc Hk Hmax; simpl.
  - by rewrite app_nil_r.
  - simpl in Hmax. unfold size_incr, size_add.
    rewrite wrap_small by lia. rewrite IH by lia.
    unfold push_back. destruct (p x); [|done]. by rewrite <-app_assoc.
Qed.

Lemma idxs_from_lower p xs k i : i ∈ idxs_from p k xs → (k ≤ i)%Z.
Proof.
  revert k. induction xs as [|x xs IH]; intros k; simpl.
  - by intros ?%elem_of_nil.
  - intros [Hi|Hi]%elem_of_app.
    + destruct (p x); [|by apply elem_of_nil in Hi].
      apply list_elem_of_singleton in Hi. lia.
    + apply IH in Hi. lia.
Qed.

Lemma idxs_from_sorted p xs k : StronglySorted Z.lt (idxs_from p k xs).
Proof.
  revert k. induction xs as [|x xs IH]; intros k; simpl; [constructor|].
  destruct (p x); simpl; [|apply IH].
  constructor; [apply IH|]. apply Forall_forall. intros i Hi.
  apply idxs_from_lower in Hi. lia.
Qed.

Lemma idxs_from_elem_of p xs k i :
  i ∈ idxs_from p k xs ↔ ∃ n, i = (k + Z.of_nat n)%Z ∧ match_at p xs n.
Proof.
  revert k. induction xs as [|x xs IH]; intros k; simpl.
  - split; [by intros ?%elem_of_nil|]. by intros (n & _ & y & Hy & _).
  - rewrite elem_of_app, IH. split.
    + intros [Hi|(n & -> & y & Hy & Hp)].
      * destruct (p x) eqn:Hx; [|by apply elem_of_nil in Hi].
        apply list_elem_of_singleton in Hi as ->.
        exists 0. split; [lia|]. by exists x.
      * exists (S n). split; [lia|]. by exists y.
    + intros ([|n] & -> & y & Hy & Hp); simpl in Hy.
      * injection Hy as ->. left. rewrite Hp.
        apply list_elem_of_singleton. lia.
      * right. exists n. split; [lia|]. by exists y.
Qed.

Lemma find_all_idxs_by_run p xs :
  fits_size_t xs → find_all_idxs_by p xs = idxs_from p 0 xs.
Proof.
  intros Hfit. unfold find_all_idxs_by.
  rewrite idxs_loop_run; [done|lia|]. unfold fits_size_t in Hfit. lia.
Qed.

(** X6. The result of [find_all_idxs_by p xs] holds exactly the positions
    of [xs] whose element satisfies [p]. *)
Lemma find_all_idxs_by_elem_of p xs i :
  fits_size_t xs →
  i ∈ find_all_idxs_by p xs ↔ ∃ n, i = Z.of_nat n ∧ match_at p xs n.
Proof.
  intros Hfit. rewrite find_all_idxs_by_run by done.
  rewrite idxs_from_elem_of. by setoid_rewrite Z.add_0_l.
Qed.

(** C5. [find_all_idxs_by p xs] lists indices in strictly increasing
    order, has as many entries as [xs] has elements satisfying [p], and
    is the empty container on the empty input. *)
Theorem find_all_idxs_by_correct p xs :
  fits_size_t xs →
  StronglySorted Z.lt (find_all_idxs_by p xs) ∧
  length (find_all_idxs_by p xs) = count_if p xs ∧
  find_all_idxs_by p [] = [].
Proof.
  intros Hfit. split_and!.
  - rewrite find_all_idxs_by_run by done. apply idxs_from_sorted.
  - unfold find_all_idxs_by. by rewrite idxs_loop_length.
  - done.
Qed.
End all_idxs.

Lemma find_all_idxs_by_correct_witness :
  fits_size_t [1; 3; 4; 6; 9]%Z ∧
  (StronglySorted Z.lt (find_all_idxs_by Z.even [1; 3; 4; 6; 9]%Z) ∧
   length (find_all_idxs_by Z.even [1; 3; 4; 6; 9]%Z)
     = count_if Z.even [1; 3; 4; 6; 9]%Z ∧
   find_all_idxs_by Z.even [] = []).
Proof.
  split; [size_t_fits|].
  apply (find_all_idxs_by_correct Z.even [1; 3; 4; 6; 9]%Z). size_t_fits.
Defined.

(** ** Subsequence search *)

Section subsequence.
Context {T : Type} {HT : EqDecision T}.
Implicit Types (token xs : list T).

Lemma equal_loop_decide (r1 r2 : list T) :
  length r1 = length r2 → equal_loop r1 r2 = bool_decide (r1 = r2).
Proof.
  revert r2. induction r1 as [|x r1 IH]; intros [|y r2]; simpl; try done.
  intros [= Hlen]. rewrite IH by done. rewrite <-bool_decide_and.
  apply bool_decide_ext. split; [by intros [-> ->]|by intros [= -> ->]].
Qed.

Lemma std_equal_sub_range token xs k :
  k + length token ≤ length xs →
  std_equal xs k (k + length token) token (std_begin token)
    = bool_decide (sub_range xs k (length token) = token).
Proof.
  intros Hk. unfold std_equal, range, std_begin, sub_range.
  rewrite drop_0. replace (k + length token - k) with (length token) by lia.
  apply equal_loop_decide. rewrite length_take_le; [done|].
  rewrite length_drop. lia.
Qed.

Lemma occurrences_upper token xs k i :
  i ∈ occurrences token xs k → (i < Z.of_nat k)%Z.
Proof.
  induction k as [|k IH]; simpl; [by intros ?%elem_of_nil|].
  intros [Hi|Hi]%elem_of_app; [apply IH in Hi; lia|].
  case_decide; [|by apply elem_of_nil in Hi].
  apply list_elem_of_singleton in Hi. lia.
Qed.

Lemma occurrences_elem_of token xs k i :
  i ∈ occurrences token xs k ↔
  ∃ j, i = Z.of_nat j ∧ j < k ∧ sub_range xs j (length token) = token.
Proof.
  induction k as [|k IH]; simpl.
  - split; [by intros ?%elem_of_nil|]. intros (j & _ & Hj & _). lia.
  - rewrite elem_of_app, IH. split.
    + intros [(j & -> & Hj & Heq)|Hi].
      * exists j. split_and!; [done|lia|done].
      * case_decide; [|by apply elem_of_nil in Hi].
        apply list_elem_of_singleton in Hi as ->. exists k.
        split_and!; [done|lia|done].
    + intros (j & -> & Hj & Heq).
      destruct (decide (j = k)) as [->|Hne].
      * right. rewrite decide_True by done. by apply list_elem_of_singleton.
      * left. exists j. split_and!; [done|lia|done].
Qed.

Lemma occurrences_sorted token xs k :
  StronglySorted Z.lt (occurrences token xs k).
Proof.
  induction k as [|k IH]; simpl; [constructor|].
  apply StronglySorted_app_2; [|done|].
  - intros i j Hi Hj. apply occurrences_upper in Hi.
    case_decide; [|by apply elem_of_nil in Hj].
    apply list_elem_of_singleton in Hj. lia.
  - case_decide; repeat constructor.
Qed.

Lemma push_back_decide (P : Prop) `{!Decision P} (acc : list Z) i :
  (if bool_decide P then push_back acc i else acc)
    = acc ++ (if decide P then [i] else []).
Proof.
  unfold push_back. destruct (decide P).
  - by rewrite bool_decide_eq_true_2.
  - by rewrite bool_decide_eq_false_2, app_nil_r.
Qed.

Lemma scan_body_at token xs k :
  fits_size_t xs → k + length token < length xs →
  scan_body token xs (scan_state_at token xs k)
    = scan_state_at token xs (S k).
Proof.
  intros Hfit Hk. unfold fits_size_t in Hfit.
  unfold scan_body, check_and_push, scan_state_at.
  cbn [itInBegin itInEnd idx result checked]. f_equal.
  - unfold size_incr, size_add. rewrite wrap_small by lia. lia.
  - rewrite std_equal_sub_range by lia. apply push_back_decide.
  - unfold push_back. by rewrite seq_S, fmap_app.
Qed.

(** The [while] loop reaches [last] from any earlier round, in exactly
    the rounds that are left. *)
Lemma scan_loop_at token xs last fuel k :
  fits_size_t xs → last + length token ≤ length xs → k + fuel = last →
  scan_loop token xs (Z.of_nat last) fuel (scan_state_at token xs k)
    = scan_state_at token xs last.
Proof.
  intros Hfit Hlast. revert k.
  induction fuel as [|fuel IH]; intros k Hk; simpl.
  - by replace k with last by lia.
  - rewrite decide_False by lia. rewrite scan_body_at by (done || lia).
    apply IH. lia.
Qed.

Lemma size_of_cont_token token xs :
  fits_size_t xs → length token ≤ length xs →
  size_of_cont token = Z.of_nat (length token).
Proof.
  intros Hfit Hle. apply size_of_cont_fits. unfold fits_size_t in *. lia.
Qed.

Lemma last_possible_idx_fits token xs :
  fits_size_t xs → length token ≤ length xs →
  size_sub (size_of_cont xs) (size_of_cont token)
    = Z.of_nat (length xs - length token).
Proof.
  intros Hfit Hle. rewrite (size_of_cont_token token xs) by done.
  rewrite size_of_cont_fits by done. unfold size_sub, fits_size_t in *.
  rewrite wrap_small by lia. lia.
Qed.

Lemma scan_at token xs :
  fits_size_t xs → length token ≤ length xs →
  scan token xs = scan_state_at token xs (length xs - length token).
Proof.
  intros Hfit Hle. unfold scan.
  rewrite last_possible_idx_fits by done.
  rewrite (size_of_cont_token token xs) by done.
  unfold std_advance, std_begin. rewrite !Nat2Z.id.
  apply (scan_loop_at token xs _ _ 0); [done|lia|lia].
Qed.

(** The loop is left because its guard is false, not for lack of rounds. *)
Lemma scan_exit_guard token xs :
  fits_size_t xs → length token ≤ length xs →
  idx (scan token xs) = size_sub (size_of_cont xs) (size_of_cont token).
Proof.
  intros Hfit Hle. rewrite scan_at by done.
  by rewrite last_possible_idx_fits.
Qed.

Lemma scan_loop_stop token xs last fuel st :
  idx st = last → scan_loop token xs last fuel st = st.
Proof. intros Hst. destruct fuel; simpl; [done|]. by rewrite decide_True. Qed.

Lemma scan_loop_more_fuel token xs last fuel extra st :
  idx (scan_loop token xs last fuel st) = last →
  scan_loop token xs last (fuel + extra) st
    = scan_loop token xs last fuel st.
Proof.
  revert st. induction fuel as [|fuel IH]; intros st; simpl.
  - intros Hst. by apply scan_loop_stop.
  - case_decide; [done|]. apply IH.
Qed.

Lemma find_all_instances_of_trace_run token xs :
  fits_size_t xs → length token ≤ length xs →
  find_all_instances_of_trace token xs
    = (Z.of_nat <$> seq 0 (S (length xs - length token)),
       occurrences token xs (S (length xs - length token))).
Proof.
  intros Hfit Hle. unfold find_all_instances_of_trace.
  rewrite (size_of_cont_token token xs) by done.
  rewrite size_of_cont_fits by done. rewrite decide_False by lia.
  rewrite scan_at by done. unfold check_and_push, scan_state_at.
  cbn [itInBegin itInEnd idx result checked].
  rewrite std_equal_sub_range by lia. rewrite push_back_decide.
  unfold push_back. by rewrite seq_S, fmap_app.
Qed.

Lemma find_all_instances_of_run token xs :
  fits_size_t xs → length token ≤ length xs →
  find_all_instances_of token xs
    = occurrences token xs (S (length xs - length token)).
Proof.
  intros Hfit Hle. unfold find_all_instances_of.
  by rewrite find_all_instances_of_trace_run.
Qed.

Lemma find_all_instances_of_longer token xs :
  fits_size_t token → fits_size_t xs → length xs < length token →
  find_all_instances_of_trace token xs = ([], []).
Proof.
  intros Htoken Hfit Hlt. unfold find_all_instances_of_trace.
  rewrite !size_of_cont_fits by done. rewrite decide_True; [done|lia].
Qed.
End subsequence.

Section subsequence_results.
Context {T : Type} {HT : EqDecision T}.
Implicit Types (token xs : list T).

Lemma find_all_instances_of_elem_of token xs i :
  fits_size_t xs → length token ≤ length xs →
  i ∈ find_all_instances_of token xs ↔
  ∃ j, i = Z.of_nat j ∧ j ≤ length xs - length token ∧
       sub_range xs j (length token) = token.
Proof.
  intros Hfit Hle. rewrite find_all_instances_of_run by done.
  rewrite occurrences_elem_of.
  split; intros (j & -> & Hj & Heq); exists j; split_and!; done || lia.
Qed.

Lemma find_all_instances_of_sorted token xs :
  fits_size_t token → fits_size_t xs →
  StronglySorted Z.lt (find_all_instances_of token xs).
Proof.
  intros Htoken Hfit.
  destruct (decide (length token ≤ length xs)) as [Hle|Hgt].
  - rewrite find_all_instances_of_run by done. apply occurrences_sorted.
  - unfold find_all_instances_of.
    rewrite find_all_instances_of_longer by (done || lia). constructor.
Qed.

Lemma occurrences_empty_token xs k :
  occurrences [] xs k = Z.of_nat <$> seq 0 k.
Proof.
  induction k as [|k IH]; [done|].
  cbn [occurrences]. rewrite IH, seq_S, fmap_app.
  by rewrite decide_True.
Qed.
End subsequence_results.

(** C3. When the token is not empty and not longer than [xs],
    [find_all_instances_of token xs] holds exactly the start indices [i] in
    [[0, size(xs) - size(token)]] at which the sub-range
    [xs[i .. i+size(token))] equals the token, overlapping matches
    included, in ascending order; and
    [find_all_instances_of "haha" "oh, hahaha!"] is [[4, 6]]. *)
Theorem find_all_instances_of_correct :
  (∀ (T : Type) (HT : EqDecision T) (token xs : list T),
     fits_size_t xs → 0 < length token → length token ≤ length xs →
     (∀ i, i ∈ find_all_instances_of token xs ↔
           ∃ j, i = Z.of_nat j ∧ j ≤ length xs - length token ∧
                sub_range xs j (length token) = token) ∧
     StronglySorted Z.lt (find_all_instances_of token xs)) ∧
  find_all_instances_of (chars "haha") (chars "oh, hahaha!") = [4; 6]%Z ∧
  find_all_instances_of (chars "aa") (chars "aaa") = [0; 1]%Z.
Proof.
  split; [|by vm_compute].
  intros T HT token xs Hfit _ Hle. split.
  - intros i. by apply find_all_instances_of_elem_of.
  - rewrite find_all_instances_of_run by done. apply occurrences_sorted.
Qed.

Lemma find_all_instances_of_correct_witness :
  fits_size_t (chars "oh, hahaha!") ∧
  0 < length (chars "haha") ∧
  length (chars "haha") ≤ length (chars "oh, hahaha!") ∧
  StronglySorted Z.lt
    (find_all_instances_of (chars "haha") (chars "oh, hahaha!")).
Proof.
  split; [size_t_fits|]. split; [simpl; lia|]. split; [simpl; lia|].
  apply (proj1 find_all_instances_of_correct);
    [size_t_fits|simpl; lia|simpl; lia].
Defined.

(** C6. A token longer than [xs] gives the empty result container, and no
    candidate position is compared with the token. *)
Theorem find_all_instances_of_token_longer
    {T : Type} {HT : EqDecision T} (token xs : list T) :
  fits_size_t token → fits_size_t xs → length xs < length token →
  find_all_instances_of token xs = [] ∧
  (find_all_instances_of_trace token xs).1 = [].
Proof.
  intros Htoken Hfit Hlt. unfold find_all_instances_of.
  by rewrite find_all_instances_of_longer.
Qed.

Lemma find_all_instances_of_token_longer_witness :
  fits_size_t (chars "abcd") ∧ fits_size_t (chars "abc") ∧
  length (chars "abc") < length (chars "abcd") ∧
  find_all_instances_of (chars "abcd") (chars "abc") = [] ∧
  (find_all_instances_of_trace (chars "abcd") (chars "abc")).1 = [].
Proof.
  split; [size_t_fits|]. split; [size_t_fits|]. split; [simpl; lia|].
  apply (find_all_instances_of_token_longer (chars "abcd") (chars "abc"));
    [size_t_fits|size_t_fits|simpl; lia].
Defined.

(** C10. For the empty token, [find_all_instances_of] returns every index
    from [0] to [size(xs)] inclusive, [size(xs) + 1] of them, the empty
    sub-range at each position being equal to the token.  The [while] loop
    compares the candidates below [size(xs)] and is left with
    [idx = size(xs)]; that last candidate is compared once, after the
    loop. *)
Theorem find_all_instances_of_empty_token
    {T : Type} {HT : EqDecision T} (xs : list T) :
  fits_size_t xs →
  find_all_instances_of [] xs = Z.of_nat <$> seq 0 (S (length xs)) ∧
  length (find_all_instances_of [] xs) = length xs + 1 ∧
  (∀ j, sub_range xs j (length (@nil T)) = []) ∧
  checked (scan [] xs) = Z.of_nat <$> seq 0 (length xs) ∧
  idx (scan [] xs) = Z.of_nat (length xs) ∧
  (find_all_instances_of_trace [] xs).1
    = checked (scan [] xs) ++ [Z.of_nat (length xs)] ∧
  Z.of_nat (length xs) ∉ checked (scan [] xs).
Proof.
  intros Hfit.
  assert (length (@nil T) ≤ length xs) as Hle by (simpl; lia).
  pose proof (find_all_instances_of_trace_run [] xs Hfit Hle) as Htrace.
  pose proof (scan_at [] xs Hfit Hle) as Hscan.
  replace (length xs - length (@nil T)) with (length xs) in Htrace, Hscan
    by (simpl; lia).
  unfold find_all_instances_of. rewrite Htrace, Hscan.
  cbn [fst snd checked idx scan_state_at].
  rewrite occurrences_empty_token. split_and!.
  - done.
  - rewrite length_fmap, length_seq. lia.
  - done.
  - done.
  - done.
  - by rewrite seq_S, fmap_app.
  - intros (j & Hj & Hin)%list_elem_of_fmap.
    apply elem_of_seq in Hin. lia.
Qed.

Lemma find_all_instances_of_empty_token_witness :
  fits_size_t (chars "abc") ∧
  find_all_instances_of [] (chars "abc") = [0; 1; 2; 3]%Z.
Proof.
  split; [size_t_fits|].
  apply (find_all_instances_of_empty_token (chars "abc")). size_t_fits.
Defined.

(** ** Non-overlapping occurrences *)

Section greedy.
Implicit Types (m prev : Z) (l acc : list Z).

Lemma greedy_from_elem_of m prev l i : i ∈ greedy_from m prev l → i ∈ l.
Proof.
  revert prev. induction l as [|b l IH]; intros prev; simpl; [done|].
  case_decide.
  - intros [->|Hi]%elem_of_cons; [left|right; by eapply IH].
  - intros Hi. right. by eapply IH.
Qed.

(** Every kept match starts at or after the end of the one kept before. *)
Lemma greedy_from_gaps m prev l :
  (∀ b, head (greedy_from m prev l) = Some b → (prev + m ≤ b)%Z) ∧
  (∀ k a b, greedy_from m prev l !! k = Some a →
            greedy_from m prev l !! S k = Some b → (a + m ≤ b)%Z).
Proof.
  revert prev. induction l as [|c l IH]; intros prev; simpl; [done|].
  case_decide as Hc; [|apply IH].
  destruct (IH c) as [IHhead IHnext]. split.
  - by intros b [= <-].
  - intros [|k] a b; simpl.
    + intros [= <-] Hb. apply IHhead. by rewrite head_lookup.
    + apply IHnext.
Qed.

(** The [for] loop once a match has been kept, as long as the end of a
    kept match is a [std::size_t] value. *)
Lemma non_overlapping_loop m acc prev l :
  (0 ≤ m)%Z → last acc = Some prev →
  (∀ b, b ∈ prev :: l → (0 ≤ b ∧ b + m ≤ SIZE_MAX)%Z) →
  foldl (non_overlapping_step m) acc l = acc ++ greedy_from m prev l.
Proof.
  intros Hm. revert acc prev.
  induction l as [|b l IH]; intros acc prev Hlast Hrange; simpl.
  - by rewrite app_nil_r.
  - unfold non_overlapping_step at 2. rewrite Hlast.
    unfold size_add. rewrite wrap_small.
    2:{ destruct (Hrange prev); [left|lia]. }
    case_decide.
    + unfold push_back. rewrite (IH _ b).
      * by rewrite <-app_assoc.
      * apply last_snoc.
      * intros c Hc. apply Hrange. by right.
    + apply IH; [done|]. intros c [->|Hc]%elem_of_cons; apply Hrange.
      * left.
      * by do 2 right.
Qed.

Lemma non_overlapping_greedy m l :
  (0 ≤ m)%Z → (∀ b, b ∈ l → (0 ≤ b ∧ b + m ≤ SIZE_MAX)%Z) →
  foldl (non_overlapping_step m) [] l = leftmost_greedy m l.
Proof.
  intros Hm Hrange. destruct l as [|a l]; [done|]. simpl.
  by rewrite (non_overlapping_loop m _ a).
Qed.
End greedy.

(** C4. [find_all_instances_of_non_overlapping token xs] is the
    leftmost-greedy selection over the ascending list of overlapping
    matches: the first overlapping match, if any, is kept; consecutive kept
    indices [a], [b] satisfy [b >= a + size(token)]; and every kept index
    is an overlapping match. *)
Theorem find_all_instances_of_non_overlapping_correct
    {T : Type} {HT : EqDecision T} (token xs : list T) :
  fits_size_t token → fits_size_t xs →
  find_all_instances_of_non_overlapping token xs
    = leftmost_greedy (Z.of_nat (length token))
        (find_all_instances_of token xs) ∧
  StronglySorted Z.lt (find_all_instances_of token xs) ∧
  head (find_all_instances_of_non_overlapping token xs)
    = head (find_all_instances_of token xs) ∧
  (∀ k a b,
     find_all_instances_of_non_overlapping token xs !! k = Some a →
     find_all_instances_of_non_overlapping token xs !! S k = Some b →
     (a + Z.of_nat (length token) ≤ b)%Z) ∧
  (∀ i, i ∈ find_all_instances_of_non_overlapping token xs →
        i ∈ find_all_instances_of token xs).
Proof.
  intros Htoken Hfit.
  assert (find_all_instances_of_non_overlapping token xs
          = leftmost_greedy (Z.of_nat (length token))
              (find_all_instances_of token xs)) as Hgreedy.
  { unfold find_all_instances_of_non_overlapping.
    rewrite size_of_cont_fits by done.
    apply non_overlapping_greedy; [lia|]. intros b Hb.
    destruct (decide (length token ≤ length xs)) as [Hle|Hgt].
    - apply find_all_instances_of_elem_of in Hb as (j & -> & Hj & _);
        [|done..].
      unfold fits_size_t in Hfit. lia.
    - unfold find_all_instances_of in Hb.
      rewrite find_all_instances_of_longer in Hb by (done || lia).
      by apply elem_of_nil in Hb. }
  rewrite Hgreedy. split; [done|].
  split; [by apply find_all_instances_of_sorted|].
  destruct (find_all_instances_of token xs) as [|a0 ov]; [done|].
  destruct (greedy_from_gaps (Z.of_nat (length token)) a0 ov)
    as [Hhead Hnext].
  simpl. split_and!.
  - done.
  - intros [|k] a b; simpl.
    + intros [= <-] Hb. apply Hhead. by rewrite head_lookup.
    + apply Hnext.
  - intros i [->|Hi]%elem_of_cons; [left|right].
    by eapply greedy_from_elem_of.
Qed.

Lemma find_all_instances_of_non_overlapping_correct_witness :
  fits_size_t (chars "haha") ∧ fits_size_t (chars "oh, hahaha!") ∧
  find_all_instances_of_non_overlapping (chars "haha") (chars "oh, hahaha!")
    = leftmost_greedy (Z.of_nat (length (chars "haha")))
        (find_all_instances_of (chars "haha") (chars "oh, hahaha!")).
Proof.
  split; [size_t_fits|]. split; [size_t_fits|].
  apply (find_all_instances_of_non_overlapping_correct
           (chars "haha") (chars "oh, hahaha!")); size_t_fits.
Defined.

(** ** More on the first and the last match *)

Section first_last_more.
Context {T : Type}.
Implicit Types (pred : T → bool) (xs : list T).



Lemma no_match_filter pred xs : no_match pred xs → List.filter pred xs = [].
Proof.
  induction xs as [|x xs IH]; intros Hno; simpl; [done|].
  rewrite (Hno x) by left. apply IH. intros y Hy. apply Hno. by right.
Qed.

Lemma first_match_tail pred x xs n :
  pred x = false → first_match pred (x :: xs) (S n) → first_match pred xs n.
Proof.
  intros Hx [Hat Hbefore]. split; [done|].
  intros m Hm Hatm. apply (Hbefore (S m)); [lia|done].
Qed.

Lemma first_match_head_filter pred xs n x :
  first_match pred xs n → xs !! n = Some x →
  head (List.filter pred xs) = Some x.
Proof.
  revert n. induction xs as [|y xs IH]; intros n Hfm Hx; [done|].
  destruct n as [|n]; simpl in *.
  - injection Hx as ->. destruct Hfm as [(z & [= <-] & ->) _]. done.
  - destruct (pred y) eqn:Hy.
    + destruct Hfm as [_ Hbefore]. destruct (Hbefore 0); [lia|by exists y].
    + eapply IH; [|done]. by eapply first_match_tail.
Qed.

Lemma find_first_by_filter pred xs :
  find_first_by pred xs = to_maybe (head (List.filter pred xs)).
Proof.
  destruct (find_first_by_cases pred xs)
    as [[-> Hno]|(n & x & -> & Hx & Hfm)].
  - by rewrite no_match_filter.
  - by rewrite (first_match_head_filter pred xs n x).
Qed.

(** X1. [find_first_by pred xs] is empty exactly when no element of [xs]
    satisfies [pred], and otherwise holds the element at the smallest
    position whose element satisfies [pred]. *)
Theorem find_first_by_correct pred xs :
  (find_first_by pred xs = nothing ↔ no_match pred xs) ∧
  (¬ no_match pred xs →
   ∃ n x, find_first_by pred xs = just x ∧ xs !! n = Some x ∧
          first_match pred xs n).
Proof.
  destruct (find_first_by_cases pred xs)
    as [[Heq Hno]|(n & x & Heq & Hx & Hfm)].
  - split; [done|]. intros Hsome. by destruct Hsome.
  - split; [|by eauto]. rewrite Heq. split; [done|].
    intros Hno. destruct Hfm as [Hat _].
    by apply no_match_not_match_at with (n := n) in Hno.
Qed.

(** X2. [find_first_by] and [find_last_by] hold the first and the last
    element of the sub-sequence of the elements that satisfy [pred]. *)
Theorem find_by_filter pred xs :
  find_first_by pred xs = to_maybe (head (List.filter pred xs)) ∧
  find_last_by pred xs = to_maybe (last (List.filter pred xs)).
Proof.
  split; [apply find_first_by_filter|].
  unfold find_last_by. rewrite find_first_by_filter. unfold reverse.
  rewrite List.filter_rev.
  change (rev (List.filter pred xs)) with (reverse (List.filter pred xs)).
  by rewrite reverse_alt, head_reverse.
Qed.


(** X5. [find_first_idx_by] and [find_last_idx_by] are empty together, and
    the indices they hold are positions of [xs], the first no larger than
    the last. *)
Theorem find_idx_by_bounds pred xs :
  fits_size_t xs →
  (find_first_idx_by pred xs = nothing ↔ find_last_idx_by pred xs = nothing) ∧
  (∀ i j, find_first_idx_by pred xs = just i →
          find_last_idx_by pred xs = just j →
          (0 ≤ i ∧ i ≤ j ∧ j < Z.of_nat (length xs))%Z).
Proof.
  intros Hfit.
  destruct (find_first_idx_by_cases pred xs Hfit)
    as [[-> Hno]|(n & -> & Hfm)];
  destruct (find_last_idx_by_cases pred xs Hfit)
    as [(-> & _ & Hno')|(n' & -> & Hlm & _)].
  - done.
  - destruct Hlm as [Hat _]. by destruct (no_match_not_match_at _ _ n' Hno).
  - destruct Hfm as [Hat _]. by destruct (no_match_not_match_at _ _ n Hno').
  - split; [done|]. intros i j [= <-] [= <-].
    destruct Hfm as [Hat Hbefore], Hlm as [Hat' Hafter].
    pose proof (match_at_lt _ _ _ Hat'). 
    assert (n ≤ n'); [|lia].
    destruct (decide (n ≤ n')) as [|Hgt]; [done|].
    destruct (Hbefore n'); [lia|done].
Qed.

(** X20. Searching the reversed container from the end is searching the
    container from the start: the same element is found, at the mirrored
    index. *)
Theorem find_last_reverse pred xs :
  fits_size_t xs →
  find_last_by pred (reverse xs) = find_first_by pred xs ∧
  find_last_idx_by pred (reverse xs)
    = lift (λ i, Z.of_nat (length xs) - (i + 1))%Z
        (find_first_idx_by pred xs).
Proof.
  intros Hfit. unfold find_last_by, find_last_idx_by, reverse.
  rewrite rev_involutive. split; [done|].
  destruct (find_first_idx_by_cases pred xs Hfit)
    as [[-> Hno]|(n & -> & [Hat _])]; [done|].
  apply match_at_lt in Hat. simpl. f_equal.
  change (rev xs) with (reverse xs).
  rewrite calcRevIdx_mirror.
  - unfold reverse. rewrite length_rev. lia.
  - by apply fits_size_t_reverse.
  - unfold reverse. by rewrite length_rev.
Qed.
End first_last_more.


Lemma find_idx_by_bounds_witness :
  fits_size_t [1; 3; 4; 6; 9]%Z ∧
  (find_first_idx_by Z.even [1; 3; 4; 6; 9]%Z = nothing
   ↔ find_last_idx_by Z.even [1; 3; 4; 6; 9]%Z = nothing).
Proof.
  split; [size_t_fits|].
  apply (find_idx_by_bounds Z.even [1; 3; 4; 6; 9]%Z). size_t_fits.
Defined.

Lemma find_last_reverse_witness :
  fits_size_t [1; 3; 4; 6; 9]%Z ∧
  find_last_by Z.even (reverse [1; 3; 4; 6; 9]%Z)
    = find_first_by Z.even [1; 3; 4; 6; 9]%Z.
Proof.
  split; [size_t_fits|].
  apply (find_last_reverse Z.even [1; 3; 4; 6; 9]%Z). size_t_fits.
Defined.

Lemma find_all_idxs_by_elem_of_witness :
  fits_size_t [1; 3; 4; 6; 9]%Z ∧
  (3%Z ∈ find_all_idxs_by Z.even [1; 3; 4; 6; 9]%Z
   ↔ ∃ n, 3%Z = Z.of_nat n ∧ match_at Z.even [1; 3; 4; 6; 9]%Z n).
Proof.
  split; [size_t_fits|].
  apply (find_all_idxs_by_elem_of Z.even [1; 3; 4; 6; 9]%Z 3%Z). size_t_fits.
Defined.

(** ** Searching for a value, by position *)

Section value_search.
Context {T : Type} {HT : EqDecision T}.
Implicit Types (x : T) (xs : list T).

Lemma match_at_is_equal x xs n :
  match_at (bind_1st_of_2 is_equal x) xs n ↔ xs !! n = Some x.
Proof.
  unfold match_at, bind_1st_of_2, is_equal. split.
  - intros (y & Hy & Heq). apply bool_decide_eq_true in Heq. by subst.
  - intros Hx. exists x. split; [done|]. by apply bool_decide_eq_true.
Qed.

Lemma no_match_is_equal x xs :
  no_match (bind_1st_of_2 is_equal x) xs ↔ x ∉ xs.
Proof.
  unfold no_match, bind_1st_of_2, is_equal. split.
  - intros Hno Hx. specialize (Hno x Hx).
    by rewrite bool_decide_eq_true_2 in Hno.
  - intros Hx y Hy. apply bool_decide_eq_false. by intros ->.
Qed.

(** X3. [find_first_idx x xs] and [find_last_idx x xs] are empty exactly
    when [x] is not an element of [xs]; otherwise they hold the smallest
    and the largest position at which [xs] holds [x]. *)
Theorem find_idx_correct x xs :
  fits_size_t xs →
  (find_first_idx x xs = nothing ↔ x ∉ xs) ∧
  (find_last_idx x xs = nothing ↔ x ∉ xs) ∧
  (x ∈ xs →
   ∃ n n', find_first_idx x xs = just (Z.of_nat n) ∧
           find_last_idx x xs = just (Z.of_nat n') ∧
           xs !! n = Some x ∧ xs !! n' = Some x ∧
           ∀ m, xs !! m = Some x → n ≤ m ≤ n').
Proof.
  intros Hfit. unfold find_first_idx, find_last_idx. cbv zeta.
  rewrite <-no_match_is_equal.
  destruct (find_first_idx_by_cases (bind_1st_of_2 is_equal x) xs Hfit)
    as [[-> Hno]|(n & -> & Hat & Hbefore)];
  destruct (find_last_idx_by_cases (bind_1st_of_2 is_equal x) xs Hfit)
    as [(-> & _ & Hno')|(n' & -> & [Hat' Hafter] & _)].
  - split; [done|]. split; [done|].
    intros Hx. by apply no_match_is_equal in Hno.
  - by destruct (no_match_not_match_at _ _ n' Hno).
  - by destruct (no_match_not_match_at _ _ n Hno').
  - split; [split; [done|]|split; [split; [done|]|]].
    + intros Hno. by destruct (no_match_not_match_at _ _ n Hno).
    + intros Hno. by destruct (no_match_not_match_at _ _ n Hno).
    + intros _. exists n, n'. split_and!; try done.
      * by apply match_at_is_equal.
      * by apply match_at_is_equal.
      * intros m Hm%match_at_is_equal.
        destruct (decide (n ≤ m)) as [|Hlt];
          [|destruct (Hbefore m); [lia|done]].
        destruct (decide (m ≤ n')) as [|Hgt];
          [lia|destruct (Hafter m); [lia|done]].
Qed.
End value_search.

Lemma find_idx_correct_witness :
  fits_size_t [1; 3; 4; 4; 9]%Z ∧
  (find_first_idx 4%Z [1; 3; 4; 4; 9]%Z = nothing ↔ 4%Z ∉ [1; 3; 4; 4; 9]%Z).
Proof.
  split; [size_t_fits|].
  apply (find_idx_correct 4%Z [1; 3; 4; 4; 9]%Z). size_t_fits.
Defined.

(** ** More on the list of all indices *)

Section all_idxs_more.
Context {T : Type}.
Implicit Types (p : T → bool) (xs ys : list T).

Lemma sorted_head_least (l : list Z) h i :
  StronglySorted Z.lt l → head l = Some h → i ∈ l → (h ≤ i)%Z.
Proof.
  destruct l as [|a l]; [done|]. intros Hsorted [= ->] Hi.
  apply StronglySorted_cons in Hsorted as [Hall _].
  apply elem_of_cons in Hi as [->|Hi]; [lia|].
  rewrite Forall_forall in Hall. specialize (Hall i Hi). lia.
Qed.

Lemma sorted_last_greatest (l : list Z) h i :
  StronglySorted Z.lt l → last l = Some h → i ∈ l → (i ≤ h)%Z.
Proof.
  intros Hsorted [l' ->]%last_Some Hi.
  apply elem_of_app in Hi as [Hi|Hi].
  - apply StronglySorted_app in Hsorted as (Hlt & _ & _).
    specialize (Hlt i h Hi). rewrite list_elem_of_singleton in Hlt.
    specialize (Hlt eq_refl). lia.
  - apply list_elem_of_singleton in Hi. lia.
Qed.

Lemma idxs_from_app p k xs ys :
  idxs_from p k (xs ++ ys)
    = idxs_from p k xs ++ idxs_from p (k + Z.of_nat (length xs)) ys.
Proof.
  revert k. induction xs as [|x xs IH]; intros k; simpl.
  - by rewrite Z.add_0_r.
  - rewrite IH, <-app_assoc. do 3 f_equal. lia.
Qed.

Lemma idxs_from_shift p k d ys :
  idxs_from p (k + d) ys = (λ i, i + d)%Z <$> idxs_from p k ys.
Proof.
  revert k. induction ys as [|y ys IH]; intros k; simpl; [done|].
  rewrite fmap_app, <-IH. f_equal; [by destruct (p y)|]. f_equal. lia.
Qed.

Lemma idxs_from_lookup p pre xs :
  (λ i, (pre ++ xs) !! Z.to_nat i) <$> idxs_from p (Z.of_nat (length pre)) xs
    = Some <$> List.filter p xs.
Proof.
  revert pre. induction xs as [|x xs IH]; intros pre; simpl; [done|].
  rewrite fmap_app.
  replace (Z.of_nat (length pre) + 1)%Z
    with (Z.of_nat (length (pre ++ [x]))) by (rewrite length_app; simpl; lia).
  rewrite (cons_middle x pre xs), app_assoc, IH.
  destruct (p x); simpl; [|done].
  rewrite Nat2Z.id, <-app_assoc. simpl. by rewrite list_lookup_middle.
Qed.

Lemma fits_size_t_app_l xs ys : fits_size_t (xs ++ ys) → fits_size_t xs.
Proof. unfold fits_size_t. rewrite length_app. lia. Qed.

Lemma fits_size_t_app_r xs ys : fits_size_t (xs ++ ys) → fits_size_t ys.
Proof. unfold fits_size_t. rewrite length_app. lia. Qed.

(** X7. [find_first_idx_by] and [find_last_idx_by] hold the first and the
    last entry of [find_all_idxs_by], and are empty when that list is. *)
Theorem find_idx_by_of_all_idxs p xs :
  fits_size_t xs →
  find_first_idx_by p xs = to_maybe (head (find_all_idxs_by p xs)) ∧
  find_last_idx_by p xs = to_maybe (last (find_all_idxs_by p xs)).
Proof.
  intros Hfit. rewrite find_all_idxs_by_run by done.
  pose proof (idxs_from_sorted p xs 0) as Hsorted.
  assert (∀ i, i ∈ idxs_from p 0 xs ↔ ∃ n, i = Z.of_nat n ∧ match_at p xs n)
    as Helem.
  { intros i. rewrite idxs_from_elem_of. by setoid_rewrite Z.add_0_l. }
  assert (no_match p xs → idxs_from p 0 xs = []) as Hempty.
  { intros Hno. destruct (idxs_from p 0 xs) as [|i l]; [done|].
    destruct (proj1 (Helem i)) as (n & _ & Hat); [left|].
    by destruct (no_match_not_match_at _ _ n Hno). }
  split.
  - destruct (find_first_idx_by_cases p xs Hfit)
      as [[-> Hno]|(n & -> & Hat & Hbefore)]; [by rewrite Hempty|].
    assert (Z.of_nat n ∈ idxs_from p 0 xs) as Hn by (apply Helem; eauto).
    destruct (head (idxs_from p 0 xs)) as [h|] eqn:Hhead.
    + simpl. f_equal.
      pose proof (sorted_head_least _ _ _ Hsorted Hhead Hn) as Hle.
      destruct (proj1 (Helem h)) as (m & -> & Hm).
      { rewrite head_lookup in Hhead. apply list_elem_of_lookup. eauto. }
      destruct (decide (n ≤ m)) as [|Hlt]; [lia|].
      destruct (Hbefore m); [lia|done].
    + apply head_None in Hhead. rewrite Hhead in Hn.
      by apply elem_of_nil in Hn.
  - destruct (find_last_idx_by_cases p xs Hfit)
      as [(-> & _ & Hno)|(n & -> & [Hat Hafter] & _)]; [by rewrite Hempty|].
    assert (Z.of_nat n ∈ idxs_from p 0 xs) as Hn by (apply Helem; eauto).
    destruct (last (idxs_from p 0 xs)) as [h|] eqn:Hlast.
    + simpl. f_equal.
      pose proof (sorted_last_greatest _ _ _ Hsorted Hlast Hn) as Hle.
      destruct (proj1 (Helem h)) as (m & -> & Hm).
      { rewrite last_lookup in Hlast. apply list_elem_of_lookup. eauto. }
      destruct (decide (m ≤ n)) as [|Hlt]; [lia|].
      destruct (Hafter m); [lia|done].
    + apply last_None in Hlast. rewrite Hlast in Hn.
      by apply elem_of_nil in Hn.
Qed.

(** X8. The indices found in a concatenation are those found in the first
    part, followed by those found in the second part moved up by the size
    of the first. *)
Theorem find_all_idxs_by_app p xs ys :
  fits_size_t (xs ++ ys) →
  find_all_idxs_by p (xs ++ ys)
    = find_all_idxs_by p xs
        ++ ((λ i, i + Z.of_nat (length xs))%Z <$> find_all_idxs_by p ys).
Proof.
  intros Hfit.
  rewrite !find_all_idxs_by_run
    by eauto using fits_size_t_app_l, fits_size_t_app_r.
  by rewrite idxs_from_app, idxs_from_shift.
Qed.

(** X9. Reading [xs] at the indices of [find_all_idxs_by p xs] gives the
    elements of [xs] that satisfy [p], in their order. *)
Theorem find_all_idxs_by_elements p xs :
  fits_size_t xs →
  (λ i, xs !! Z.to_nat i) <$> find_all_idxs_by p xs
    = Some <$> List.filter p xs.
Proof.
  intros Hfit. rewrite find_all_idxs_by_run by done.
  apply (idxs_from_lookup p [] xs).
Qed.
End all_idxs_more.

Lemma find_idx_by_of_all_idxs_witness :
  fits_size_t [1; 3; 4; 6; 9]%Z ∧
  find_last_idx_by Z.even [1; 3; 4; 6; 9]%Z
    = to_maybe (last (find_all_idxs_by Z.even [1; 3; 4; 6; 9]%Z)).
Proof.
  split; [size_t_fits|].
  apply (find_idx_by_of_all_idxs Z.even [1; 3; 4; 6; 9]%Z). size_t_fits.
Defined.

Lemma find_all_idxs_by_app_witness :
  fits_size_t ([1; 4]%Z ++ [6; 9]%Z) ∧
  find_all_idxs_by Z.even ([1; 4]%Z ++ [6; 9]%Z)
    = find_all_idxs_by Z.even [1; 4]%Z
        ++ ((λ i, i + Z.of_nat (length [1; 4]%Z))%Z
              <$> find_all_idxs_by Z.even [6; 9]%Z).
Proof.
  split; [size_t_fits|].
  apply (find_all_idxs_by_app Z.even [1; 4]%Z [6; 9]%Z). size_t_fits.
Defined.

Lemma find_all_idxs_by_elements_witness :
  fits_size_t [1; 3; 4; 6; 9]%Z ∧
  (λ i, [1; 3; 4; 6; 9]%Z !! Z.to_nat i)
    <$> find_all_idxs_by Z.even [1; 3; 4; 6; 9]%Z
    = Some <$> List.filter Z.even [1; 3; 4; 6; 9]%Z.
Proof.
  split; [size_t_fits|].
  apply (find_all_idxs_by_elements Z.even [1; 3; 4; 6; 9]%Z). size_t_fits.
Defined.

(** ** Searching for all positions of a value *)

Section all_idxs_of.
Context {T : Type} {HT : EqDecision T}.
Implicit Types (x : T) (xs token : list T).

Lemma count_if_ext (p q : T → bool) xs :
  (∀ y, p y = q y) → count_if p xs = count_if q xs.
Proof.
  intros Hext. induction xs as [|y xs IH]; simpl; [done|].
  by rewrite Hext, IH.
Qed.

Lemma occurrences_length token xs k : length (occurrences token xs k) ≤ k.
Proof.
  induction k as [|k IH]; simpl; [done|].
  rewrite length_app. case_decide; simpl; lia.
Qed.

Lemma occurrences_singleton x xs k :
  k ≤ length xs →
  occurrences [x] xs k = idxs_from (bind_1st_of_2 is_equal x) 0 (take k xs).
Proof.
  induction k as [|k IH]; intros Hk; [done|].
  destruct (lookup_lt_is_Some_2 xs k) as [y Hy]; [lia|].
  rewrite (take_S_r _ _ _ Hy), idxs_from_app, <-IH by lia.
  cbn [occurrences]. f_equal.
  rewrite length_take_le by lia. unfold sub_range.
  rewrite (drop_S _ _ _ Hy). simpl. rewrite take_0.
  unfold bind_1st_of_2, is_equal.
  destruct (decide (x = y)) as [->|Hne].
  - by rewrite decide_True, bool_decide_eq_true_2.
  - rewrite decide_False by congruence. by rewrite bool_decide_eq_false_2.
Qed.

(** X10. [find_all_idxs_of x xs] holds exactly the positions at which [xs]
    holds [x], in strictly increasing order and as many as [x] occurs; it
    is the empty container exactly when [x] is not an element of [xs]. *)
Theorem find_all_idxs_of_correct x xs :
  fits_size_t xs →
  (∀ i, i ∈ find_all_idxs_of x xs ↔ ∃ n, i = Z.of_nat n ∧ xs !! n = Some x) ∧
  StronglySorted Z.lt (find_all_idxs_of x xs) ∧
  length (find_all_idxs_of x xs) = count_if (λ y, bool_decide (y = x)) xs ∧
  (find_all_idxs_of x xs = [] ↔ x ∉ xs).
Proof.
  intros Hfit. unfold find_all_idxs_of. cbv zeta.
  assert (∀ i, i ∈ find_all_idxs_by (bind_1st_of_2 is_equal x) xs
               ↔ ∃ n, i = Z.of_nat n ∧ xs !! n = Some x) as Helem.
  { intros i. rewrite find_all_idxs_by_run by done.
    rewrite idxs_from_elem_of. setoid_rewrite Z.add_0_l.
    by setoid_rewrite match_at_is_equal. }
  split_and!.
  - done.
  - rewrite find_all_idxs_by_run by done. apply idxs_from_sorted.
  - unfold find_all_idxs_by. rewrite idxs_loop_length. simpl.
    apply count_if_ext. intros y. unfold bind_1st_of_2, is_equal.
    apply bool_decide_ext. by split.
  - split.
    + intros Hnil [n Hn]%list_elem_of_lookup.
      assert (Z.of_nat n ∈ find_all_idxs_by (bind_1st_of_2 is_equal x) xs)
        as Hin by (apply Helem; eauto).
      rewrite Hnil in Hin. by apply elem_of_nil in Hin.
    + intros Hx.
      destruct (find_all_idxs_by (bind_1st_of_2 is_equal x) xs) as [|i l];
        [done|].
      destruct (proj1 (Helem i)) as (n & _ & Hn); [left|].
      destruct Hx. apply list_elem_of_lookup. eauto.
Qed.

(** X11. Searching for a token of one element is searching for the
    positions of that element. *)
Theorem find_all_instances_of_singleton x xs :
  fits_size_t xs →
  find_all_instances_of [x] xs = find_all_idxs_of x xs.
Proof.
  intros Hfit. unfold find_all_idxs_of. cbv zeta.
  rewrite find_all_idxs_by_run by done.
  destruct xs as [|y xs].
  - unfold find_all_instances_of.
    rewrite find_all_instances_of_longer; [done|size_t_fits|done|simpl; lia].
  - rewrite find_all_instances_of_run by (done || simpl; lia).
    rewrite occurrences_singleton by (simpl; lia).
    f_equal. apply take_ge. simpl. lia.
Qed.

(** X12. Every index of [find_all_instances_of token xs] starts a window of
    [size(token)] elements that lies within [xs], and there are at most
    [size(xs) - size(token) + 1] of them. *)
Theorem find_all_instances_of_bounds token xs :
  fits_size_t token → fits_size_t xs →
  (∀ i, i ∈ find_all_instances_of token xs →
        (0 ≤ i ∧ i + Z.of_nat (length token) ≤ Z.of_nat (length xs))%Z) ∧
  length (find_all_instances_of token xs) ≤ S (length xs - length token).
Proof.
  intros Htoken Hfit.
  destruct (decide (length token ≤ length xs)) as [Hle|Hgt].
  - rewrite find_all_instances_of_run by done.
    split; [|apply occurrences_length].
    intros i (j & -> & Hj & _)%occurrences_elem_of. lia.
  - unfold find_all_instances_of.
    rewrite find_all_instances_of_longer by (done || lia). simpl.
    split; [|lia]. by intros i ?%elem_of_nil.
Qed.

End all_idxs_of.

Lemma find_all_idxs_of_correct_witness :
  fits_size_t [1; 3; 4; 4; 9]%Z ∧
  (find_all_idxs_of 4%Z [1; 3; 4; 4; 9]%Z = [] ↔ 4%Z ∉ [1; 3; 4; 4; 9]%Z).
Proof.
  split; [size_t_fits|].
  apply (find_all_idxs_of_correct 4%Z [1; 3; 4; 4; 9]%Z). size_t_fits.
Defined.

Lemma find_all_instances_of_singleton_witness :
  fits_size_t [1; 3; 4; 4; 9]%Z ∧
  find_all_instances_of [4%Z] [1; 3; 4; 4; 9]%Z
    = find_all_idxs_of 4%Z [1; 3; 4; 4; 9]%Z.
Proof.
  split; [size_t_fits|].
  apply (find_all_instances_of_singleton 4%Z [1; 3; 4; 4; 9]%Z). size_t_fits.
Defined.

Lemma find_all_instances_of_bounds_witness :
  fits_size_t (chars "haha") ∧ fits_size_t (chars "oh, hahaha!") ∧
  length (find_all_instances_of (chars "haha") (chars "oh, hahaha!"))
    ≤ S (length (chars "oh, hahaha!") - length (chars "haha")).
Proof.
  split; [size_t_fits|]. split; [size_t_fits|].
  apply (find_all_instances_of_bounds (chars "haha") (chars "oh, hahaha!"));
    size_t_fits.
Defined.


(** ** The scan of [find_all_instances_of], round by round *)

Section scan_rounds.
Context {T : Type} {HT : EqDecision T}.
Implicit Types (token xs : list T).

Lemma scan_init_at token xs :
  fits_size_t xs → length token ≤ length xs →
  scan_init token xs = scan_state_at token xs 0.
Proof.
  intros Hfit Hle. unfold scan_init, scan_state_at.
  rewrite (size_of_cont_token token xs) by done.
  unfold std_advance, std_begin. by rewrite Nat2Z.id.
Qed.

(** The [while] loop after any number of rounds. *)
Lemma scan_loop_partial token xs last fuel k :
  fits_size_t xs → last + length token ≤ length xs → k ≤ last →
  scan_loop token xs (Z.of_nat last) fuel (scan_state_at token xs k)
    = scan_state_at token xs (Nat.min (k + fuel) last).
Proof.
  intros Hfit Hlast. revert k.
  induction fuel as [|fuel IH]; intros k Hk; simpl.
  - f_equal. lia.
  - destruct (decide (Z.of_nat k = Z.of_nat last)) as [Heq|Hne].
    + f_equal. lia.
    + rewrite scan_body_at by (done || lia). rewrite IH by lia.
      f_equal. lia.
Qed.

Lemma scan_loop_rounds token xs fuel :
  fits_size_t xs → length token ≤ length xs →
  scan_loop token xs (last_possible_idx token xs) fuel (scan_init token xs)
    = scan_state_at token xs (Nat.min fuel (length xs - length token)).
Proof.
  intros Hfit Hle. unfold last_possible_idx.
  rewrite last_possible_idx_fits, scan_init_at by done.
  by rewrite scan_loop_partial by (done || lia).
Qed.

(** X14. At every round of the scan, the window between [itInBegin] and
    [itInEnd] has [size(token)] elements and lies within [xs], [idx] is the
    position of [itInBegin], and [idx] has not passed
    [last_possible_idx]. *)
Theorem scan_window token xs fuel :
  fits_size_t xs → length token ≤ length xs →
  itInEnd (scan_loop token xs (last_possible_idx token xs) fuel
             (scan_init token xs))
    = itInBegin (scan_loop token xs (last_possible_idx token xs) fuel
                   (scan_init token xs)) + length token ∧
  itInEnd (scan_loop token xs (last_possible_idx token xs) fuel
             (scan_init token xs)) ≤ std_end xs ∧
  idx (scan_loop token xs (last_possible_idx token xs) fuel
         (scan_init token xs))
    = Z.of_nat (itInBegin (scan_loop token xs (last_possible_idx token xs)
                             fuel (scan_init token xs))) ∧
  (idx (scan_loop token xs (last_possible_idx token xs) fuel
          (scan_init token xs)) ≤ last_possible_idx token xs)%Z.
Proof.
  intros Hfit Hle. rewrite scan_loop_rounds by done.
  unfold last_possible_idx. rewrite last_possible_idx_fits by done.
  unfold scan_state_at, std_end. simpl. lia.
Qed.

(** X15. The [while] loop stops: once [last_possible_idx] rounds are
    allowed, allowing more changes nothing, the loop is left with
    [idx = last_possible_idx], and the window then ends at the end of
    [xs]. *)
Theorem scan_terminates token xs fuel :
  fits_size_t xs → length token ≤ length xs →
  Z.to_nat (last_possible_idx token xs) ≤ fuel →
  scan_loop token xs (last_possible_idx token xs) fuel (scan_init token xs)
    = scan token xs ∧
  idx (scan token xs) = last_possible_idx token xs ∧
  itInEnd (scan token xs) = std_end xs.
Proof.
  intros Hfit Hle Hfuel. rewrite scan_loop_rounds, scan_at by done.
  unfold last_possible_idx in *.
  rewrite last_possible_idx_fits in * by done. rewrite Nat2Z.id in Hfuel.
  rewrite Nat.min_r by done. unfold scan_state_at, std_end. simpl.
  split; [done|]. split; [done|lia].
Qed.

(** X16. When the token is not longer than [xs], the scan compares with
    the token the candidates [0] to [size(xs) - size(token)], each once and
    in ascending order. *)
Theorem find_all_instances_of_candidates token xs :
  fits_size_t xs → length token ≤ length xs →
  (find_all_instances_of_trace token xs).1
    = Z.of_nat <$> seq 0 (S (length xs - length token)) ∧
  length (find_all_instances_of_trace token xs).1
    = S (length xs - length token).
Proof.
  intros Hfit Hle. rewrite find_all_instances_of_trace_run by done.
  cbn [fst]. split; [done|]. by rewrite length_fmap, length_seq.
Qed.
End scan_rounds.

Lemma scan_window_witness :
  fits_size_t (chars "oh, hahaha!") ∧
  length (chars "haha") ≤ length (chars "oh, hahaha!") ∧
  itInEnd (scan_loop (chars "haha") (chars "oh, hahaha!")
             (last_possible_idx (chars "haha") (chars "oh, hahaha!")) 3
             (scan_init (chars "haha") (chars "oh, hahaha!")))
    ≤ std_end (chars "oh, hahaha!").
Proof.
  split; [size_t_fits|]. split; [simpl; lia|].
  apply (scan_window (chars "haha") (chars "oh, hahaha!") 3);
    [size_t_fits|simpl; lia].
Defined.

Lemma scan_terminates_witness :
  fits_size_t (chars "oh, hahaha!") ∧
  length (chars "haha") ≤ length (chars "oh, hahaha!") ∧
  Z.to_nat (last_possible_idx (chars "haha") (chars "oh, hahaha!")) ≤ 20 ∧
  scan_loop (chars "haha") (chars "oh, hahaha!")
    (last_possible_idx (chars "haha") (chars "oh, hahaha!")) 20
    (scan_init (chars "haha") (chars "oh, hahaha!"))
    = scan (chars "haha") (chars "oh, hahaha!").
Proof.
  split; [size_t_fits|]. split; [simpl; lia|].
  split; [vm_compute; lia|].
  apply (scan_terminates (chars "haha") (chars "oh, hahaha!") 20);
    [size_t_fits|simpl; lia|vm_compute; lia].
Defined.

Lemma find_all_instances_of_candidates_witness :
  fits_size_t (chars "oh, hahaha!") ∧
  length (chars "haha") ≤ length (chars "oh, hahaha!") ∧
  length (find_all_instances_of_trace (chars "haha")
            (chars "oh, hahaha!")).1
    = S (length (chars "oh, hahaha!") - length (chars "haha")).
Proof.
  split; [size_t_fits|]. split; [simpl; lia|].
  apply (find_all_instances_of_candidates (chars "haha")
           (chars "oh, hahaha!")); [size_t_fits|simpl; lia].
Defined.

(** ** More on the non-overlapping occurrences *)

Section greedy_more.
Implicit Types (m prev : Z) (l : list Z).

Lemma sorted_lookup_lt l k k' a b :
  StronglySorted Z.lt l → k < k' → l !! k = Some a → l !! k' = Some b →
  (a < b)%Z.
Proof.
  intros Hsorted. revert k k'.
  induction Hsorted as [|c l Hsorted IH Hall]; intros k k' Hk Ha Hb; [done|].
  destruct k' as [|k']; [lia|]. simpl in Hb. destruct k as [|k]; simpl in Ha.
  - injection Ha as ->. rewrite Forall_forall in Hall.
    apply Hall, list_elem_of_lookup. eauto.
  - apply (IH k k'); [lia|done..].
Qed.

Lemma sublist_elem_of (l1 l2 : list Z) i :
  l1 `sublist_of` l2 → i ∈ l1 → i ∈ l2.
Proof.
  induction 1 as [|x l1 l2 _ IH|x l1 l2 _ IH]; [done|..].
  - intros [->|Hi]%elem_of_cons; [left|right; auto].
  - intros Hi. right. auto.
Qed.

Lemma sublist_sorted (l1 l2 : list Z) :
  l1 `sublist_of` l2 → StronglySorted Z.lt l2 → StronglySorted Z.lt l1.
Proof.
  induction 1 as [|x l1 l2 Hsub IH|x l1 l2 Hsub IH]; [done|..].
  - intros [Hall Hsorted]%StronglySorted_cons. constructor; [auto|].
    rewrite Forall_forall in *. intros i Hi. apply Hall.
    by eapply sublist_elem_of.
  - intros [_ Hsorted]%StronglySorted_cons. auto.
Qed.

Lemma greedy_from_sublist m prev l : greedy_from m prev l `sublist_of` l.
Proof.
  revert prev. induction l as [|b l IH]; intros prev; simpl; [constructor|].
  case_decide; [apply sublist_skip|apply sublist_cons]; apply IH.
Qed.

Lemma leftmost_greedy_sublist m l : leftmost_greedy m l `sublist_of` l.
Proof.
  destruct l as [|a l]; simpl; [constructor|].
  apply sublist_skip, greedy_from_sublist.
Qed.

Lemma leftmost_greedy_gaps m l k a b :
  leftmost_greedy m l !! k = Some a → leftmost_greedy m l !! S k = Some b →
  (a + m ≤ b)%Z.
Proof.
  destruct l as [|a0 l]; [done|]. simpl.
  destruct (greedy_from_gaps m a0 l) as [Hhead Hnext].
  destruct k as [|k]; simpl.
  - intros [= <-] Hb. apply Hhead. by rewrite head_lookup.
  - apply Hnext.
Qed.

(** A match that is dropped starts inside the window of a kept match. *)
Lemma greedy_from_dropped m prev l i :
  StronglySorted Z.lt (prev :: l) → i ∈ l → i ∉ greedy_from m prev l →
  ∃ a, a ∈ prev :: greedy_from m prev l ∧ (a < i < a + m)%Z.
Proof.
  revert prev. induction l as [|b l IH]; intros prev Hsorted Hi Hdrop.
  { by apply elem_of_nil in Hi. }
  apply StronglySorted_cons in Hsorted as [Hprev Hsorted].
  pose proof Hsorted as [Hb Hl]%StronglySorted_cons.
  apply Forall_cons in Hprev as [Hpb Hprev].
  simpl in *. case_decide as Hkeep.
  - apply not_elem_of_cons in Hdrop as [Hne Hdrop].
    apply elem_of_cons in Hi as [->|Hi]; [done|].
    destruct (IH b Hsorted Hi Hdrop) as (a & Ha & Hai).
    exists a. split; [by right|done].
  - apply elem_of_cons in Hi as [->|Hi].
    + exists prev. split; [left|lia].
    + apply IH; [|done..]. by constructor.
Qed.

(** When consecutive matches are a token apart, all are kept. *)
Lemma greedy_from_all m prev l :
  (∀ k a b, (prev :: l) !! k = Some a → (prev :: l) !! S k = Some b →
            (a + m ≤ b)%Z) →
  greedy_from m prev l = l.
Proof.
  revert prev. induction l as [|b l IH]; intros prev Hgaps; simpl; [done|].
  rewrite decide_True by (by apply (Hgaps 0)).
  f_equal. apply IH. intros k a c. apply (Hgaps (S k)).
Qed.
End greedy_more.

Section non_overlapping_more.
Context {T : Type} {HT : EqDecision T}.
Implicit Types (token xs : list T).

Lemma non_overlapping_leftmost_greedy token xs :
  fits_size_t token → fits_size_t xs →
  find_all_instances_of_non_overlapping token xs
    = leftmost_greedy (Z.of_nat (length token))
        (find_all_instances_of token xs).
Proof.
  intros Htoken Hfit. unfold find_all_instances_of_non_overlapping.
  rewrite size_of_cont_fits by done.
  apply non_overlapping_greedy; [lia|]. intros b Hb.
  destruct (decide (length token ≤ length xs)) as [Hle|Hgt].
  - apply find_all_instances_of_elem_of in Hb as (j & -> & Hj & _);
      [|done..].
    unfold fits_size_t in Hfit. lia.
  - unfold find_all_instances_of in Hb.
    rewrite find_all_instances_of_longer in Hb by (done || lia).
    by apply elem_of_nil in Hb.
Qed.

(** X17. The kept matches are a sub-list of the overlapping matches, in
    strictly increasing order, and the windows of any two of them are
    disjoint: a later one starts at or after the end of an earlier one. *)
Theorem non_overlapping_disjoint token xs :
  fits_size_t token → fits_size_t xs →
  (find_all_instances_of_non_overlapping token xs
     `sublist_of` find_all_instances_of token xs) ∧
  StronglySorted Z.lt (find_all_instances_of_non_overlapping token xs) ∧
  (∀ k k' a b,
     k < k' →
     find_all_instances_of_non_overlapping token xs !! k = Some a →
     find_all_instances_of_non_overlapping token xs !! k' = Some b →
     (a + Z.of_nat (length token) ≤ b)%Z).
Proof.
  intros Htoken Hfit. rewrite non_overlapping_leftmost_greedy by done.
  pose proof (find_all_instances_of_sorted token xs Htoken Hfit) as Hov.
  pose proof (leftmost_greedy_sublist (Z.of_nat (length token))
                (find_all_instances_of token xs)) as Hsub.
  pose proof (sublist_sorted _ _ Hsub Hov) as Hsorted.
  split; [done|]. split; [done|].
  intros k k' a b Hk Ha Hb.
  destruct (lookup_lt_is_Some_2
              (leftmost_greedy (Z.of_nat (length token))
                 (find_all_instances_of token xs)) (S k)) as [c Hc].
  { apply lookup_lt_Some in Hb. lia. }
  pose proof (leftmost_greedy_gaps _ _ _ _ _ Ha Hc) as Hac.
  destruct (decide (S k = k')) as [<-|Hne].
  - rewrite Hc in Hb. injection Hb as <-. done.
  - assert (c < b)%Z; [|lia].
    apply (sorted_lookup_lt _ (S k) k' c b Hsorted); [lia|done..].
Qed.

(** X18. A match is dropped only when it starts inside the window of a
    kept match that starts before it. *)
Theorem non_overlapping_dropped token xs i :
  fits_size_t token → fits_size_t xs →
  i ∈ find_all_instances_of token xs →
  i ∉ find_all_instances_of_non_overlapping token xs →
  ∃ a, a ∈ find_all_instances_of_non_overlapping token xs ∧
       (a < i < a + Z.of_nat (length token))%Z.
Proof.
  intros Htoken Hfit. rewrite non_overlapping_leftmost_greedy by done.
  pose proof (find_all_instances_of_sorted token xs Htoken Hfit) as Hov.
  destruct (find_all_instances_of token xs) as [|a0 ov]; simpl.
  { by intros ?%elem_of_nil. }
  intros Hi Hdrop. apply not_elem_of_cons in Hdrop as [Hne Hdrop].
  apply elem_of_cons in Hi as [->|Hi]; [done|].
  by apply greedy_from_dropped.
Qed.

(** X19. All overlapping matches are kept exactly when consecutive ones are
    at least a token apart; in particular all are kept for the empty
    token. *)
Theorem non_overlapping_keeps_all token xs :
  fits_size_t token → fits_size_t xs →
  (find_all_instances_of_non_overlapping token xs
     = find_all_instances_of token xs
   ↔ ∀ k a b, find_all_instances_of token xs !! k = Some a →
              find_all_instances_of token xs !! S k = Some b →
              (a + Z.of_nat (length token) ≤ b)%Z) ∧
  (token = [] →
   find_all_instances_of_non_overlapping token xs
     = find_all_instances_of token xs).
Proof.
  intros Htoken Hfit. rewrite non_overlapping_leftmost_greedy by done.
  pose proof (find_all_instances_of_sorted token xs Htoken Hfit) as Hov.
  assert ((∀ k a b, find_all_instances_of token xs !! k = Some a →
                    find_all_instances_of token xs !! S k = Some b →
                    (a + Z.of_nat (length token) ≤ b)%Z) →
          leftmost_greedy (Z.of_nat (length token))
            (find_all_instances_of token xs)
            = find_all_instances_of token xs) as Hall.
  { destruct (find_all_instances_of token xs) as [|a0 ov]; [done|].
    intros Hgaps. simpl. f_equal. by apply greedy_from_all. }
  split.
  - split; [|done]. intros Heq k a b. rewrite <-Heq.
    apply leftmost_greedy_gaps.
  - intros ->. apply Hall. intros k a b Ha Hb. simpl.
    assert (a < b)%Z; [|lia].
    by apply (sorted_lookup_lt _ k (S k) a b Hov); [lia|..].
Qed.
End non_overlapping_more.

Lemma non_overlapping_disjoint_witness :
  fits_size_t (chars "aa") ∧ fits_size_t (chars "aaaaa") ∧
  StronglySorted Z.lt
    (find_all_instances_of_non_overlapping (chars "aa") (chars "aaaaa")).
Proof.
  split; [size_t_fits|]. split; [size_t_fits|].
  apply (non_overlapping_disjoint (chars "aa") (chars "aaaaa")); size_t_fits.
Defined.

Lemma non_overlapping_dropped_witness :
  fits_size_t (chars "haha") ∧ fits_size_t (chars "oh, hahaha!") ∧
  6%Z ∈ find_all_instances_of (chars "haha") (chars "oh, hahaha!") ∧
  (6%Z ∉ find_all_instances_of_non_overlapping (chars "haha")
           (chars "oh, hahaha!")) ∧
  ∃ a, a ∈ find_all_instances_of_non_overlapping (chars "haha")
             (chars "oh, hahaha!") ∧
       (a < 6 < a + Z.of_nat (length (chars "haha")))%Z.
Proof.
  assert (6%Z ∈ find_all_instances_of (chars "haha") (chars "oh, hahaha!"))
    as Hin by (vm_compute; right; left).
  assert (6%Z ∉ find_all_instances_of_non_overlapping (chars "haha")
                  (chars "oh, hahaha!")) as Hout.
  { vm_compute. intros [Heq|Hnil]%elem_of_cons; [lia|].
    by apply elem_of_nil in Hnil. }
  split; [size_t_fits|]. split; [size_t_fits|].
  split; [exact Hin|]. split; [exact Hout|].
  apply (non_overlapping_dropped (chars "haha") (chars "oh, hahaha!") 6%Z);
    [size_t_fits|size_t_fits|exact Hin|exact Hout].
Defined.

Lemma non_overlapping_keeps_all_witness :
  fits_size_t (@nil Ascii.ascii) ∧ fits_size_t (chars "abc") ∧
  (@nil Ascii.ascii = [] →
   find_all_instances_of_non_overlapping [] (chars "abc")
     = find_all_instances_of [] (chars "abc")).
Proof.
  split; [size_t_fits|]. split; [size_t_fits|].
  apply (non_overlapping_keeps_all [] (chars "abc")); size_t_fits.
Defined.

(** ** A token that does not occur *)

Section not_found.
Context {T : Type} {HT : EqDecision T}.
Implicit Types (token xs : list T).

Lemma sub_range_length xs j n : length (sub_range xs j n) ≤ length xs - j.
Proof. unfold sub_range. rewrite length_take, length_drop. lia. Qed.

(** X21. [find_all_instances_of token xs] is the empty container exactly
    when no sub-range of [xs] equals the token, and the non-overlapping
    variant is empty exactly when it is. *)
Theorem find_all_instances_of_none token xs :
  fits_size_t token → fits_size_t xs →
  (find_all_instances_of token xs = []
   ↔ ∀ j, sub_range xs j (length token) ≠ token) ∧
  (find_all_instances_of_non_overlapping token xs = []
   ↔ find_all_instances_of token xs = []).
Proof.
  intros Htoken Hfit. split.
  - destruct (decide (length token ≤ length xs)) as [Hle|Hgt].
    + split.
      * intros Hnil j Heq.
        assert (∃ j', j' ≤ length xs - length token ∧
                      sub_range xs j' (length token) = token)
          as (j' & Hj' & Heq').
        { pose proof (sub_range_length xs j (length token)) as Hlen.
          rewrite Heq in Hlen.
          destruct (decide (length token = 0)) as [Hzero|Hpos].
          - exists 0. split; [lia|]. rewrite Hzero.
            by destruct token.
          - exists j. split; [lia|done]. }
        assert (Z.of_nat j' ∈ find_all_instances_of token xs) as Hin.
        { apply find_all_instances_of_elem_of; [done..|]. eauto. }
        rewrite Hnil in Hin. by apply elem_of_nil in Hin.
      * intros Hnone.
        destruct (find_all_instances_of token xs) as [|i l] eqn:Hres;
          [done|].
        assert (i ∈ find_all_instances_of token xs) as Hin
          by (rewrite Hres; left).
        apply find_all_instances_of_elem_of in Hin as (j & _ & _ & Heq);
          [|done..].
        by destruct (Hnone j).
    + unfold find_all_instances_of.
      rewrite find_all_instances_of_longer by (done || lia).
      split; [|done]. intros _ j Heq.
      pose proof (sub_range_length xs j (length token)) as Hlen.
      rewrite Heq in Hlen. lia.
  - rewrite non_overlapping_leftmost_greedy by done.
    by destruct (find_all_instances_of token xs).
Qed.
End not_found.

Lemma find_all_instances_of_none_witness :
  fits_size_t (chars "xy") ∧ fits_size_t (chars "abc") ∧
  (find_all_instances_of_non_overlapping (chars "xy") (chars "abc") = []
   ↔ find_all_instances_of (chars "xy") (chars "abc") = []).
Proof.
  split; [size_t_fits|]. split; [size_t_fits|].
  apply (find_all_instances_of_none (chars "xy") (chars "abc")); size_t_fits.
Defined.
